(** * stl_reader: ASCII STL parser (stl_reader.cpp, triangle_mesh.hpp)

    A shallow embedding of the geometric primitives, of [Triangle] and
    [TriangleMesh], and of the token state machine of
    [STLParser::to_triangle_mesh], followed by the properties established
    about them.

    Conventions of the embedding.
    - A C++ [double] is a binary64 value: Rocq's primitive [float], whose
      [+ - * / sqrt abs <] are the IEEE 754 round-to-nearest-even
      operations that the compiled program performs (each operation of the
      source rounded on its own: no extended precision, no fused
      multiply-add).
    - [unsigned long] is a [Z] in [0, 2^64) and every addition on it is
      reduced modulo [2^64]; [long] is a [Z] whose increment past
      [LONG_MAX] is undefined behaviour.
    - A function that can throw returns a [result]: the value it returns,
      the exception it throws, undefined behaviour, or (for the one loop of
      the program) failure to terminate within the given fuel.  A member
      function that modifies its object returns, next to that, the object
      as it is after the call, also when the call throws.
    - [std::vector] is a [list]; [operator[]] out of range is undefined
      behaviour.
    - The text written to [cerr] by [check_triangle] and the textual dump
      [str_rep] are not modelled. *)

From Stdlib Require Import ZArith List String Ascii Bool Lia Floats.
Import ListNotations.

Set Warnings "-inexact-float".

Local Open Scope string_scope.
Local Open Scope list_scope.
Local Open Scope Z_scope.

(** ** Exceptions and results *)

(** The exception classes that occur: [std::runtime_error] is the only one
    the program throws itself; [std::invalid_argument] and
    [std::out_of_range] are what [std::stod] throws. *)
Inductive exn : Type :=
| runtime_error (what : string)
| invalid_argument (what : string)
| out_of_range (what : string).

Inductive result (A : Type) : Type :=
| Returns (a : A)
| Throws (e : exn)
| Undefined
| Diverges.

Arguments Returns {A} a.
Arguments Throws {A} e.
Arguments Undefined {A}.
Arguments Diverges {A}.

Definition bind {A B : Type} (c : result A) (k : A -> result B) : result B :=
  match c with
  | Returns a => k a
  | Throws e => Throws e
  | Undefined => Undefined
  | Diverges => Diverges
  end.

Notation "x <- c ;; k" := (bind c (fun x => k))
  (at level 61, c at next level, right associativity).

(** A member function that modifies its object returns its outcome together
    with the object after the call.  [assign c this update]: the object
    after [member = c], which is [this] itself when evaluating [c] does not
    return. *)
Definition assign {A T : Type} (c : result A) (this : T) (update : A -> T)
    : result unit * T :=
  match c with
  | Returns a => (Returns tt, update a)
  | Throws e => (Throws e, this)
  | Undefined => (Undefined, this)
  | Diverges => (Diverges, this)
  end.

(** [call c k]: continue with the modified object when the call returned,
    leave with its exception otherwise. *)
Definition call {T B : Type} (c : result unit * T) (k : T -> result B)
    : result B :=
  bind (fst c) (fun _ => k (snd c)).

Notation "this' <~ c ;; k" := (call c (fun this' => k))
  (at level 61, c at next level, right associativity).

(** [try { body } catch (invalid_argument& e) { handler }] *)
Definition try_catch_invalid_argument {A : Type}
    (body : result A) (handler : string -> result A) : result A :=
  match body with
  | Throws (invalid_argument w) => handler w
  | r => r
  end.

(** The messages of the [runtime_error]s, as the source spells them. *)
Module Msg.
Definition unit_vector :=
  "Point::unit_vector: tried to normalized Point(0, 0, 0)".
Definition add_vertex :=
  "Triangle::add_vertex: Tried to add fourth vertex of triangle.".
Definition calculate_facet_normal :=
  "Triangle::calculate_facet_normal(): Not enough vertices associated with triangle.".
Definition add_triangle :=
  "Triangle::add_triagle: tried to add an invalid triangle (triangle check failed)".
Definition coordinates :=
  "STLParser::to_triangle_mesh: file format error - could not parse coordinates".
Definition solid_name :=
  "STLParser::to_triangle_mesh: file format error - could not parse solid's name".
Definition facet_or_endsolid :=
  "STLParser::to_triangle_mesh: keyword 'facet' or keyword 'endsolid' expected, but not found.".
Definition facet_normal :=
  "STLParser::to_triangle_mesh: file format error - double keyword 'facet normal' is not complete".
Definition outer_loop :=
  "STLParser::to_triangle_mesh: file format error - keyword 'outer loop' is not complete or missing".
Definition invalid_triangle :=
  "STLParser::to_triangle_mesh: file format error - tried to create invalid triangle.".
Definition loop_segment :=
  "STLParser::to_triangle_mesh: file format error - invalid 'outer loop' segment".
Definition never_ended :=
  "STLParser::to_triangle_mesh: file format error - solid segment was never ended".
End Msg.

(** The source does not separate its errors by type; the specification
    names them by kind.  [kind_of] attaches to each message the kind under
    which the specification's error taxonomy lists its cause. *)
Inductive ErrorKind : Type :=
| DegenerateVector
| TooManyVertices
| InsufficientVertices
| InvalidTriangle
| GrammarViolation
| CoordinateParseError
| UnterminatedSolid.

Definition kind_table : list (string * ErrorKind) :=
  [ (Msg.unit_vector, DegenerateVector);
    (Msg.add_vertex, TooManyVertices);
    (Msg.calculate_facet_normal, InsufficientVertices);
    (Msg.add_triangle, InvalidTriangle);
    (Msg.invalid_triangle, InvalidTriangle);
    (Msg.coordinates, CoordinateParseError);
    (Msg.solid_name, GrammarViolation);
    (Msg.facet_or_endsolid, GrammarViolation);
    (Msg.facet_normal, GrammarViolation);
    (Msg.outer_loop, GrammarViolation);
    (Msg.loop_segment, GrammarViolation);
    (Msg.never_ended, UnterminatedSolid) ].

Fixpoint lookup_kind (tbl : list (string * ErrorKind)) (w : string)
    : option ErrorKind :=
  match tbl with
  | [] => None
  | (m, k) :: tbl' => if String.eqb m w then Some k else lookup_kind tbl' w
  end.

Definition kind_of (e : exn) : option ErrorKind :=
  match e with
  | runtime_error w => lookup_kind kind_table w
  | _ => None
  end.

(** ** Machine integers *)

Definition ULONG_MAX : Z := 2 ^ 64 - 1.
Definition LONG_MAX : Z := 2 ^ 63 - 1.

(** [a + b] on [unsigned long]. *)
Definition ulong_add (a b : Z) : Z := (a + b) mod 2 ^ 64.

(** [v.size()] *)
Definition size {A : Type} (v : list A) : Z := Z.of_nat (List.length v).

(** [v[i]] *)
Definition at_index {A : Type} (v : list A) (i : Z) : result A :=
  if (0 <=? i) && (i <? size v) then
    match nth_error v (Z.to_nat i) with
    | Some a => Returns a
    | None => Undefined
    end
  else Undefined.

(** ** Geometric primitives *)

Local Open Scope float_scope.

(** [const double EPS = 0.001;] *)
Definition EPS : float := 0.001.

Record Point : Type := mkPoint { x : float; y : float; z : float }.

(** [Point::operator+], [Point::operator-]: [this] is the left operand. *)
Definition Point_add (this p : Point) : Point :=
  mkPoint (x this + x p) (y this + y p) (z this + z p).

Definition Point_sub (this p : Point) : Point :=
  mkPoint (x this - x p) (y this - y p) (z this - z p).

(** [Point::operator==]: componentwise, within [EPS]. *)
Definition Point_eq (this p : Point) : bool :=
  (abs (x p - x this) <? EPS) && (abs (y p - y this) <? EPS)
  && (abs (z p - z this) <? EPS).

(** [Point::operator!=] *)
Definition Point_neq (this p : Point) : bool := negb (Point_eq this p).

Definition cross_product (p q : Point) : Point :=
  mkPoint (y p * z q - z p * y q)
          (z p * x q - x p * z q)
          (x p * y q - y p * x q).

Definition norm (p : Point) : float :=
  sqrt (x p * x p + y p * y p + z p * z p).

Definition unit_vector (p : Point) : result Point :=
  let pnorm := norm p in
  if abs pnorm <? EPS then Throws (runtime_error Msg.unit_vector)
  else Returns (mkPoint (x p / pnorm) (y p / pnorm) (z p / pnorm)).

(** ** Triangle *)

Record Triangle : Type := mkTriangle {
  vertices : list Point;
  facet_normal : Point
}.

(** [Triangle::Triangle()] *)
Definition Triangle_new : Triangle := mkTriangle [] (mkPoint 0 0 0).

Definition add_vertex (this : Triangle) (vertex : Point)
    : result unit * Triangle :=
  if (size (vertices this) <? 3)%Z
  then (Returns tt,
        mkTriangle (vertices this ++ [vertex]) (facet_normal this))
  else (Throws (runtime_error Msg.add_vertex), this).

Definition clear_vertices (this : Triangle) : Triangle :=
  mkTriangle [] (facet_normal this).

Definition set_facet_normal (this : Triangle) (normal : Point)
    : result unit * Triangle :=
  if 1.0 - abs (norm normal) <? EPS
  then (Returns tt, mkTriangle (vertices this) normal)
  else assign (unit_vector normal) this
              (fun n => mkTriangle (vertices this) n).

Definition calculate_facet_normal (this : Triangle) : result Point :=
  if (size (vertices this) =? 3)%Z then
    v0 <- at_index (vertices this) 0 ;;
    v1 <- at_index (vertices this) 1 ;;
    v2 <- at_index (vertices this) 2 ;;
    let vec1 := Point_sub v1 v0 in
    let vec2 := Point_sub v2 v0 in
    unit_vector (cross_product vec1 vec2)
  else Throws (runtime_error Msg.calculate_facet_normal).

Definition check_triangle (this : Triangle) : result bool :=
  if negb (size (vertices this) =? 3)%Z then Returns false
  else
    n <- calculate_facet_normal this ;;
    if Point_neq n (facet_normal this) then
      (* the diagnostic calls calculate_facet_normal() a second time *)
      _ <- calculate_facet_normal this ;;
      Returns false
    else Returns true.

(** ** TriangleMesh *)

Record TriangleMesh : Type := mkTriangleMesh {
  triangles : list Triangle;
  triangle_count : Z;
  name : string
}.

(** [TriangleMesh::TriangleMesh()] *)
Definition TriangleMesh_new : TriangleMesh := mkTriangleMesh [] 0 "".

(** [triangle_count++] on a [long]. *)
Definition long_incr (n : Z) : result Z :=
  if (n <? LONG_MAX)%Z then Returns (n + 1)%Z else Undefined.

Definition add_triangle (this : TriangleMesh) (tri : Triangle)
    : result unit * TriangleMesh :=
  match check_triangle tri with
  | Returns true =>
      assign (long_incr (triangle_count this)) this
             (fun c => mkTriangleMesh (triangles this ++ [tri]) c (name this))
  | Returns false => (Throws (runtime_error Msg.add_triangle), this)
  | Throws e => (Throws e, this)
  | Undefined => (Undefined, this)
  | Diverges => (Diverges, this)
  end.

Definition set_name (this : TriangleMesh) (n : string) : TriangleMesh :=
  mkTriangleMesh (triangles this) (triangle_count this) n.

Definition get_name (this : TriangleMesh) : string := name this.

Definition get_triangle_count (this : TriangleMesh) : Z := triangle_count this.

Definition get_vertices (this : Triangle) : list Point := vertices this.

Definition get_facet_normal (this : Triangle) : Point := facet_normal this.

(** ** STLParser *)

Local Close Scope float_scope.

Inductive State : Type :=
| OUTSIDE | SOLID | FACET | NORMAL | NORMAL_COORD | OUTER | LOOP | END.

Definition State_eqb (a b : State) : bool :=
  match a, b with
  | OUTSIDE, OUTSIDE | SOLID, SOLID | FACET, FACET | NORMAL, NORMAL
  | NORMAL_COORD, NORMAL_COORD | OUTER, OUTER | LOOP, LOOP | END, END => true
  | _, _ => false
  end.

(** The members of [STLParser] that parsing reads or writes (the file
    handle is left out). *)
Record STLParser : Type := mkSTLParser {
  content : string;
  tokens : list string;
  state : State
}.

(** The local variables of [to_triangle_mesh] that live across the
    iterations of its loop. *)
Record Locals : Type := mkLocals {
  cnt : Z;
  tri : Triangle;
  mesh_tmp : TriangleMesh
}.

(** [isspace] in the classic locale: space, and [\t \n \v \f \r]. *)
Definition isspace (c : ascii) : bool :=
  let n := Z.of_nat (nat_of_ascii c) in
  (n =? 32) || ((9 <=? n) && (n <=? 13)).

(** [{istream_iterator<string>{iss}, istream_iterator<string>{}}]: the
    maximal runs of non-whitespace characters, in order.  [word] is the run
    being read. *)
Fixpoint extract_words (s : string) (word : string) : list string :=
  match s with
  | EmptyString => if String.eqb word "" then [] else [word]
  | String c s' =>
      if isspace c then
        if String.eqb word "" then extract_words s' ""
        else word :: extract_words s' ""
      else extract_words s' (word ++ String c "")%string
  end.

Definition tokenize (s : string) : list string := extract_words s "".

(** What a call of [std::stod] on one token does: it converts the longest
    prefix that is a number, throws [std::invalid_argument] when no
    conversion can be performed, and [std::out_of_range] when the value
    is out of the range of [double]. *)
Inductive stod_result : Type :=
| Converted (d : float)
| NoConversion
| OutOfRange.

Definition stod_throw (r : stod_result) : result float :=
  match r with
  | Converted d => Returns d
  | NoConversion => Throws (invalid_argument "stod")
  | OutOfRange => Throws (out_of_range "stod")
  end.

Section Parser.

(** [std::stod] belongs to the C++ standard library, not to this
    program: the parser is defined for any conversion function. *)
Variable stod_conv : string -> stod_result.

Definition stod (s : string) : result float := stod_throw (stod_conv s).

Definition parse_coordinates (tokens : list string) (token_cnt : Z)
    : result Point :=
  if ulong_add token_cnt 2 <? size tokens then
    try_catch_invalid_argument
      (tx <- at_index tokens token_cnt ;;
       coordx <- stod tx ;;
       ty <- at_index tokens (ulong_add token_cnt 1) ;;
       coordy <- stod ty ;;
       tz <- at_index tokens (ulong_add token_cnt 2) ;;
       coordz <- stod tz ;;
       Returns (mkPoint coordx coordy coordz))
      (fun _ => Throws (runtime_error Msg.coordinates))
  else Throws (runtime_error Msg.coordinates).

(** The body of the [switch] for one iteration of the loop: the new
    parser state and locals, before [cnt++]. *)
Definition switch_body (tokens : list string) (st : State) (l : Locals)
    : result (State * Locals) :=
  match st with
  | OUTSIDE =>
      tok <- at_index tokens (cnt l) ;;
      if String.eqb tok "solid" then
        if ulong_add (cnt l) 1 <? size tokens then
          nxt <- at_index tokens (ulong_add (cnt l) 1) ;;
          if String.eqb nxt "facet" then
            Returns (SOLID,
                     mkLocals (cnt l) (tri l)
                              (set_name (mesh_tmp l) "no name"))
          else
            Returns (SOLID,
                     mkLocals (ulong_add (cnt l) 1) (tri l)
                              (set_name (mesh_tmp l) nxt))
        else Throws (runtime_error Msg.solid_name)
      else Returns (OUTSIDE, l)
  | SOLID =>
      tok <- at_index tokens (cnt l) ;;
      if String.eqb tok "facet" then Returns (FACET, l)
      else if String.eqb tok "endsolid" then Returns (END, l)
      else Throws (runtime_error Msg.facet_or_endsolid)
  | FACET =>
      tok <- at_index tokens (cnt l) ;;
      if String.eqb tok "normal" then Returns (NORMAL, l)
      else if String.eqb tok "endfacet" then Returns (SOLID, l)
      else Throws (runtime_error Msg.facet_normal)
  | NORMAL =>
      normal <- parse_coordinates tokens (cnt l) ;;
      tri' <~ set_facet_normal (tri l) normal ;;
      Returns (NORMAL_COORD,
               mkLocals (ulong_add (cnt l) 2) tri' (mesh_tmp l))
  | NORMAL_COORD =>
      tok <- at_index tokens (cnt l) ;;
      if String.eqb tok "outer" then Returns (OUTER, l)
      else Throws (runtime_error Msg.outer_loop)
  | OUTER =>
      tok <- at_index tokens (cnt l) ;;
      if String.eqb tok "loop" then Returns (LOOP, l)
      else Throws (runtime_error Msg.outer_loop)
  | LOOP =>
      tok <- at_index tokens (cnt l) ;;
      if String.eqb tok "vertex" then
        vertex <- parse_coordinates tokens (ulong_add (cnt l) 1) ;;
        tri' <~ add_vertex (tri l) vertex ;;
        Returns (LOOP, mkLocals (ulong_add (cnt l) 3) tri' (mesh_tmp l))
      else if String.eqb tok "endloop" then
        valid <- check_triangle (tri l) ;;
        if valid then
          mesh' <~ add_triangle (mesh_tmp l) (tri l) ;;
          Returns (FACET, mkLocals (cnt l) (clear_vertices (tri l)) mesh')
        else Throws (runtime_error Msg.invalid_triangle)
      else Throws (runtime_error Msg.loop_segment)
  | END =>
      Returns (END, mkLocals (size tokens) (tri l) (mesh_tmp l))
  end.

(** [cnt++] *)
Definition incr_cnt (l : Locals) : Locals :=
  mkLocals (ulong_add (cnt l) 1) (tri l) (mesh_tmp l).

(** [while (cnt < tokens.size()) { switch ... ; cnt++; }].  The result is
    paired with the parser state and the locals at the moment the loop is
    left, normally or by an exception. *)
Fixpoint while_loop (fuel : nat) (tokens : list string)
    (st : State) (l : Locals) : result unit * State * Locals :=
  if cnt l <? size tokens then
    match fuel with
    | O => (Diverges, st, l)
    | S fuel' =>
        match switch_body tokens st l with
        | Returns (st', l') => while_loop fuel' tokens st' (incr_cnt l')
        | Throws e => (Throws e, st, l)
        | Undefined => (Undefined, st, l)
        | Diverges => (Diverges, st, l)
        end
    end
  else (Returns tt, st, l).

(** The locals as they are when the loop is entered. *)
Definition initial_locals : Locals :=
  mkLocals 0 Triangle_new TriangleMesh_new.

(** The loop run on a token sequence from the start; every iteration
    advances [cnt] by at least one, so one unit of fuel per token (and one
    for the exit test) is enough as long as [cnt] cannot wrap. *)
Definition run_tokens (tokens : list string)
    : result unit * State * Locals :=
  while_loop (S (List.length tokens)) tokens OUTSIDE initial_locals.

(** [to_triangle_mesh(mesh)]: its outcome, the parser afterwards and the
    caller's [mesh] afterwards. *)
Definition to_triangle_mesh (this : STLParser) (mesh : TriangleMesh)
    : result unit * STLParser * TriangleMesh :=
  let toks := tokenize (content this) in
  let '(r, st, l) := run_tokens toks in
  let this' := mkSTLParser (content this) toks st in
  match r with
  | Returns _ =>
      if negb (State_eqb st END)
      then (Throws (runtime_error Msg.never_ended), this', mesh)
      else (Returns tt, this', mesh_tmp l)
  | Throws e => (Throws e, this', mesh)
  | Undefined => (Undefined, this', mesh)
  | Diverges => (Diverges, this', mesh)
  end.

End Parser.

(** ** A reference conversion for [std::stod]

    [stod_model] follows the subject sequence of C's [strtod], on which
    [std::stod] is built: optional white space and sign, then a decimal
    number with optional fraction and exponent, a hexadecimal number
    ([0x...], binary exponent [p]), [inf]/[infinity] or [nan]/[nan(...)]
    in any letter case; the longest such prefix of the token is converted
    and the rest is ignored.  The value is rounded to the nearest binary64,
    ties to even.  [std::stod] throws [std::out_of_range] when [strtod]
    reports a range error.  It does so on overflow; whether it does on
    underflow is left to the implementation by the C standard, and the
    model follows the GNU C library on x86-64 ([round_and_return] of its
    [strtod]): see [range_error_below].
    It instantiates the parser on concrete files. *)
Module Stod.

Definition code (c : ascii) : Z := Z.of_nat (nat_of_ascii c).

Definition decimal_digit (c : ascii) : option Z :=
  let n := code c in
  if (48 <=? n) && (n <=? 57) then Some (n - 48) else None.

Definition hex_digit (c : ascii) : option Z :=
  let n := code c in
  if (48 <=? n) && (n <=? 57) then Some (n - 48)
  else if (97 <=? n) && (n <=? 102) then Some (n - 87)
  else if (65 <=? n) && (n <=? 70) then Some (n - 55)
  else None.

Definition lower (c : ascii) : ascii :=
  let n := code c in
  if (65 <=? n) && (n <=? 90) then ascii_of_nat (Z.to_nat (n + 32)) else c.

(** Does [s] start with the lower-case word [w], letter case ignored? *)
Fixpoint starts_with (w s : list ascii) : bool :=
  match w, s with
  | [], _ => true
  | a :: w', c :: s' => Ascii.eqb a (lower c) && starts_with w' s'
  | _ :: _, [] => false
  end.

(** The digits at the head of [s] in the given base, accumulated onto
    [acc]: the number read, how many digits it has, and the rest. *)
Fixpoint read_digits (digit : ascii -> option Z) (base : Z)
    (s : list ascii) (acc : Z) (count : Z) : Z * Z * list ascii :=
  match s with
  | c :: s' =>
      match digit c with
      | Some d => read_digits digit base s' (acc * base + d) (count + 1)
      | None => (acc, count, s)
      end
  | [] => (acc, count, s)
  end.

(** Digits with an optional radix point: the digits as one integer, how
    many there are, how many follow the point, and the rest. *)
Definition read_mantissa (digit : ascii -> option Z) (base : Z)
    (s : list ascii) : Z * Z * Z * list ascii :=
  let '(m1, n1, s1) := read_digits digit base s 0 0 in
  match s1 with
  | "."%char :: s2 =>
      let '(m2, n2, s3) := read_digits digit base s2 m1 0 in
      (m2, n1 + n2, n2, s3)
  | _ => (m1, n1, 0, s1)
  end.

(** An exponent part introduced by [marker] ([e] or [p]); [0] when there
    is none or it has no digits. *)
Definition read_exponent (marker : ascii) (s : list ascii) : Z :=
  match s with
  | c :: s1 =>
      if Ascii.eqb (lower c) marker then
        let '(negative, s2) :=
          match s1 with
          | "+"%char :: t => (false, t)
          | "-"%char :: t => (true, t)
          | _ => (false, s1)
          end in
        let '(e, n, _) := read_digits decimal_digit 10 s2 0 0 in
        if n =? 0 then 0 else if negative then - e else e
      else 0
  | [] => 0
  end.

(** [floor (num / den * 2 ^ k)], and whether nothing is cut off. *)
Definition floor_scaled (num den k : Z) : Z :=
  if 0 <=? k then (num * 2 ^ k) / den else num / (den * 2 ^ (- k)).

Definition exact_scaled (num den k : Z) : bool :=
  if 0 <=? k then (num * 2 ^ k) mod den =? 0
  else num mod (den * 2 ^ (- k)) =? 0.

(** The exponent [e] at which [num / den] (both positive) has a mantissa
    of 53 bits: [2 ^ 52 <= floor (num / den / 2 ^ e) < 2 ^ 53]. *)
Definition mantissa_exponent (num den : Z) : Z :=
  let e0 := Z.log2 num - Z.log2 den in
  if 1 <=? floor_scaled num den (- e0) then e0 - 52 else e0 - 53.

(** Does the library report a range error for [num / den] (both positive)
    because it is too small?  The value is cut to a mantissa [m] of 53
    bits, a round bit [r0] and a sticky bit [s0].  Nothing is reported when
    [m] is at an exponent of a normal double.  Below, [m] is shifted right
    to the exponent of the subnormal doubles, which gives a new round bit
    [half] and new sticky bits.  The value counts as tiny unless it is one
    shift below the normal doubles and rounding [m] itself to 53 bits
    carries into the least normal double (tininess is detected after
    rounding); a tiny value is reported when [half] or [sticky] is set.
    For a hexadecimal number the library does not take [r0] into [sticky],
    so that a value whose cut-off part is exactly [r0] is not reported; for
    a decimal number it leaves [r0] out only when the value is one shift
    below the normal doubles. *)
Definition range_error_below (hexadecimal : bool) (num den : Z) : bool :=
  let e := mantissa_exponent num den in
  let shift := - 1074 - e in
  if shift <=? 0 then false
  else if 53 <? shift then true
  else
    let m := floor_scaled num den (- e) in
    let r0 := Z.odd (floor_scaled num den (1 - e)) in
    let s0 := negb (exact_scaled num den (1 - e)) in
    let half := Z.testbit m (shift - 1) in
    let sticky :=
      s0 || negb (m mod 2 ^ (shift - 1) =? 0)
      || (negb hexadecimal && r0 && (2 <=? shift)) in
    let carries :=
      (shift =? 1) && r0 && (Z.odd m || s0) && (m + 1 =? 2 ^ 53) in
    negb carries && (half || sticky).

(** [num / den] (both positive) rounded to binary64: the quotient is
    computed with at least 64 significant bits and a sticky bit, which
    rounds as the exact value does. *)
Definition round_ratio (num den : Z) : spec_float :=
  let s := Z.max 0 (66 + Z.log2 den - Z.log2 num) in
  let q := (num * 2 ^ s) / den in
  let r := (num * 2 ^ s) mod den in
  let sticky := if r =? 0 then 0 else 1 in
  binary_normalize prec emax (2 * q + sticky) (- (s + 1)) false.

Definition finish (hexadecimal negative : bool) (num den : Z)
    : stod_result :=
  if num =? 0 then Converted (if negative then neg_zero else zero)
  else
    let f := round_ratio num den in
    match f with
    | S754_infinity _ => OutOfRange
    | _ =>
        if range_error_below hexadecimal num den then OutOfRange
        else Converted (SF2Prim (if negative then SFopp f else f))
    end.

(** [m * base ^ e] as a ratio of positive integers. *)
Definition scaled (m base e : Z) : Z * Z :=
  if 0 <=? e then (m * base ^ e, 1) else (m, base ^ (- e)).

Definition convert_decimal (negative : bool) (s : list ascii)
    : stod_result :=
  let '(m, n, frac, rest) := read_mantissa decimal_digit 10 s in
  if n =? 0 then NoConversion
  else
    let e := read_exponent "e"%char rest in
    let '(num, den) := scaled m 10 (e - frac) in
    finish false negative num den.

Definition convert_hex (negative : bool) (s : list ascii)
    : option stod_result :=
  let '(m, n, frac, rest) := read_mantissa hex_digit 16 s in
  if n =? 0 then None
  else
    let e := read_exponent "p"%char rest in
    let '(num, den) := scaled m 2 (e - 4 * frac) in
    Some (finish true negative num den).

Definition convert_unsigned (negative : bool) (s : list ascii)
    : stod_result :=
  if starts_with ["i"; "n"; "f"]%char s
  then Converted (if negative then neg_infinity else infinity)
  else if starts_with ["n"; "a"; "n"]%char s then Converted nan
  else
    match s with
    | "0"%char :: c :: s' =>
        if Ascii.eqb (lower c) "x"%char then
          match convert_hex negative s' with
          | Some r => r
          | None => convert_decimal negative s
          end
        else convert_decimal negative s
    | _ => convert_decimal negative s
    end.

Fixpoint skip_space (s : list ascii) : list ascii :=
  match s with
  | c :: s' => if isspace c then skip_space s' else s
  | [] => s
  end.

Definition stod_model (str : string) : stod_result :=
  match skip_space (list_ascii_of_string str) with
  | "-"%char :: s => convert_unsigned true s
  | "+"%char :: s => convert_unsigned false s
  | s => convert_unsigned false s
  end.

End Stod.

(** ** Reachable objects and concrete inputs *)

(** The meshes a program can build: [triangles], [triangle_count] and
    [name] are private, so a mesh is the result of the constructor followed
    by calls of [set_name] and of [add_triangle] that returned. *)
Inductive reachable_mesh : TriangleMesh -> Prop :=
| reach_new : reachable_mesh TriangleMesh_new
| reach_set_name (m : TriangleMesh) (n : string) :
    reachable_mesh m -> reachable_mesh (set_name m n)
| reach_add_triangle (m m' : TriangleMesh) (t : Triangle) :
    reachable_mesh m -> add_triangle m t = (Returns tt, m') ->
    reachable_mesh m'.

(** Unit length as the specification words it: the norm is within [EPS]
    of 1. *)
Definition unit_length (p : Point) : bool :=
  (abs (norm p - 1) <? EPS)%float.

(** The condition under which [set_facet_normal] stores its argument
    untouched. *)
Definition passes_unit_test (p : Point) : bool :=
  (1.0 - abs (norm p) <? EPS)%float.

Definition origin : Point := mkPoint 0 0 0.

(** Three coincident vertices: the edges span no plane. *)
Definition degenerate_triangle : Triangle :=
  mkTriangle [origin; origin; origin] (mkPoint 0 0 1).

Definition right_triangle : Triangle :=
  mkTriangle [origin; mkPoint 1 0 0; mkPoint 0 1 0] (mkPoint 0 0 1).

Definition parser_on (text : string) : STLParser :=
  mkSTLParser text [] OUTSIDE.

(** The end-to-end example of the specification. *)
Definition cube_face : string :=
"solid cube_face
  facet normal 0 0 1
    outer loop
      vertex 0 0 0
      vertex 1 0 0
      vertex 0 1 0
    endloop
  endfacet
endsolid
".

(** The same file with its last line missing. *)
Definition cube_face_unterminated : string :=
"solid cube_face
  facet normal 0 0 1
    outer loop
      vertex 0 0 0
      vertex 1 0 0
      vertex 0 1 0
    endloop
  endfacet
".

(** A second solid, whose facet would not pass [check_triangle]. *)
Definition second_solid : string :=
"solid other
  facet normal 1 0 0
    outer loop
      vertex 0 0 0
      vertex 1 0 0
      vertex 0 1 0
    endloop
  endfacet
endsolid
".

Definition two_solids : string := (cube_face ++ second_solid)%string.

(** Text before the keyword [solid]. *)
Definition leading_text : string := "exported by cad ".

Definition cube_face_mesh : TriangleMesh :=
  mkTriangleMesh [right_triangle] 1 "cube_face".

(** A [std::vector] never holds more than [PTRDIFF_MAX] elements; below
    that size no index computed by the parser wraps around. *)
Definition addressable (toks : list string) : Prop := size toks < 2 ^ 63.

(** The locals with which the loop is left on [cube_face_unterminated]. *)
Definition cube_face_final_locals : Locals :=
  mkLocals 23 (mkTriangle [] (mkPoint 0 0 1)) cube_face_mesh.

(** The locals, the result of one iteration and the outcome of the loop
    when the token sequence is preceded by [k] further tokens: only the
    position moves. *)
Definition shift_cnt (k : Z) (l : Locals) : Locals :=
  mkLocals (cnt l + k) (tri l) (mesh_tmp l).

Definition shift_result (k : Z) (r : result (State * Locals))
    : result (State * Locals) :=
  match r with
  | Returns (st, l) => Returns (st, shift_cnt k l)
  | Throws e => Throws e
  | Undefined => Undefined
  | Diverges => Diverges
  end.

Definition shift_outcome (k : Z) (o : result unit * State * Locals)
    : result unit * State * Locals :=
  let '(r, st, l) := o in (r, st, shift_cnt k l).

(** What a caller can observe of a call of [to_triangle_mesh]: how it
    ended, the parser state it left, and the caller's mesh. *)
Definition observable (o : result unit * STLParser * TriangleMesh)
    : result unit * State * TriangleMesh :=
  let '(r, this', mesh') := o in (r, state this', mesh').

(** The token at position [i], for positions known to be in range. *)
Definition token (toks : list string) (i : Z) : string :=
  nth (Z.to_nat i) toks "".

(** A facet whose first vertex coordinate is too large for a [double]. *)
Definition huge_vertex : list string := ["1e999"; "0"; "0"].

(** An outcome that is a return or an exception: neither undefined
    behaviour nor a loop that does not end. *)
Definition defined {A : Type} (r : result A) : Prop :=
  match r with
  | Returns _ | Throws _ => True
  | Undefined | Diverges => False
  end.

(** Is the value of the double [f], taken exactly, at least [num / den]
    (a ratio of positive integers)? *)
Definition at_least (f : float) (num den : Z) : bool :=
  match Prim2SF f with
  | S754_infinity false => true
  | S754_finite false m e =>
      if 0 <=? e then num <=? Z.pos m * 2 ^ e * den
      else num * 2 ^ (- e) <=? Z.pos m * den
  | _ => false
  end.

(** The binary64 values of [1.0], of [EPS], and of the double nearest to
    0.999 (which is below 0.999), as sign, mantissa and exponent. *)
Definition SF_one : spec_float := S754_finite false 4503599627370496 (-52).
Definition SF_EPS : spec_float := S754_finite false 4611686018427388 (-62).
Definition SF_0999 : spec_float := S754_finite false 8998192055486251 (-53).

(** ** The rest of the program: reading the file, reachable triangles *)

Definition newline : string := String "010"%char "".

(** [STLParser::read_content]: [getline(file, line, ' ')] cuts the file at
    every space; each piece, an empty one included, is appended to
    [content] with a newline after it.  At the end of the file a call that
    extracts nothing fails and ends the loop, so a last piece is appended
    only when it is not empty.  [line] is the piece being read. *)
Fixpoint read_pieces (file : string) (line : string) : string :=
  match file with
  | EmptyString =>
      if String.eqb line "" then "" else (line ++ newline)%string
  | String c rest =>
      if Ascii.eqb c " "%char
      then (line ++ newline ++ read_pieces rest "")%string
      else read_pieces rest (line ++ String c "")%string
  end.

Definition read_content (file : string) : string := read_pieces file "".

(** [STLParser::STLParser(filename)], on a file system that gives the text
    of the files that can be opened.  The member [state] is not initialised
    by the constructor: [st0] stands for the value it happens to have. *)
Definition STLParser_new (files : string -> option string) (st0 : State)
    (filename : string) : result STLParser :=
  match files filename with
  | None =>
      Throws (runtime_error
                ("Filehandle::FileHandle: Could not read file '"
                 ++ filename ++ "'")%string)
  | Some text => Returns (mkSTLParser (read_content text) [] st0)
  end.

(** A token as the tokenizer produces them: not empty, no white space. *)
Fixpoint no_space (s : string) : bool :=
  match s with
  | EmptyString => true
  | String c s' => negb (isspace c) && no_space s'
  end.

Definition is_token (s : string) : bool :=
  negb (String.eqb s "") && no_space s.

(** Tokens written out with one space after each. *)
Fixpoint join_tokens (toks : list string) : string :=
  match toks with
  | [] => ""
  | t :: toks' => (t ++ String " "%char (join_tokens toks'))%string
  end.

(** The triangles a program can build: the constructor followed by calls of
    [add_vertex] and [set_facet_normal] that returned, and of
    [clear_vertices]. *)
Inductive reachable_triangle : Triangle -> Prop :=
| reach_Triangle_new : reachable_triangle Triangle_new
| reach_add_vertex (t t' : Triangle) (v : Point) :
    reachable_triangle t -> add_vertex t v = (Returns tt, t') ->
    reachable_triangle t'
| reach_clear_vertices (t : Triangle) :
    reachable_triangle t -> reachable_triangle (clear_vertices t)
| reach_set_facet_normal (t t' : Triangle) (n : Point) :
    reachable_triangle t -> set_facet_normal t n = (Returns tt, t') ->
    reachable_triangle t'.

(** A double that is a number: neither a NaN nor an infinity. *)
Definition finite (f : float) : bool :=
  match Prim2SF f with
  | S754_zero _ | S754_finite _ _ _ => true
  | _ => false
  end.

Definition finite_point (p : Point) : bool :=
  finite (x p) && finite (y p) && finite (z p).

(** The vector pointing the other way. *)
Definition opposite (p : Point) : Point :=
  mkPoint (- x p)%float (- y p)%float (- z p)%float.

(** The exceptions [to_triangle_mesh] can end with: ten of the program's
    messages, and [std::out_of_range] from [std::stod]. *)
Definition parser_messages : list string :=
  [ Msg.unit_vector; Msg.add_vertex; Msg.coordinates; Msg.solid_name;
    Msg.facet_or_endsolid; Msg.facet_normal; Msg.outer_loop;
    Msg.invalid_triangle; Msg.loop_segment; Msg.never_ended ].

Definition parser_exception (e : exn) : Prop :=
  (exists w, e = runtime_error w /\ In w parser_messages)
  \/ e = out_of_range "stod".

(** A solid without facets. *)
Definition empty_solid : string := "solid nothing endsolid".

(** Two binary64 values that are each other's negation, up to the sign of
    a zero: what [a - b] and [b - a] are to each other. *)
Definition flipped (u u' : spec_float) : Prop :=
  u' = SFopp u
  \/ exists s s', u = S754_zero s /\ u' = S754_zero s'.

(** ** The program *)

(** What [main] writes: the dump of the mesh and its number of triangles
    on [cout], the cause of a [runtime_error] on [cerr], or the usage line
    on [cout]. *)
Inductive Output : Type :=
| PrintedMesh (mesh : TriangleMesh)
| PrintedError (filename what : string)
| PrintedUsage.

(** [main]: [args] is [argv[0]] to [argv[argc - 1]].  The handler catches
    [runtime_error] only; any other exception leaves [main]. *)
Definition main (files : string -> option string) (st0 : State)
    (stod_conv : string -> stod_result) (args : list string)
    : result Output :=
  if size args =? 2 then
    filename <- at_index args 1 ;;
    let body :=
      parser <- STLParser_new files st0 filename ;;
      let '(r, _, mesh) :=
        to_triangle_mesh stod_conv parser TriangleMesh_new in
      _ <- r ;;
      Returns mesh in
    match body with
    | Returns mesh => Returns (PrintedMesh mesh)
    | Throws (runtime_error what) => Returns (PrintedError filename what)
    | Throws e => Throws e
    | Undefined => Undefined
    | Diverges => Diverges
    end
  else Returns PrintedUsage.

(** A file with a coordinate too large for a [double]. *)
Definition overflow_file : string :=
  "solid s facet normal 0 0 1 outer loop vertex 1e999 0 0".

(** * Properties *)

(** ** Results and machine integers *)

Lemma ulong_add_small (a b : Z) :
  0 <= a + b < 2 ^ 64 -> ulong_add a b = a + b.
Proof. intros H. unfold ulong_add. apply Z.mod_small. exact H. Qed.

Lemma size_app {A : Type} (u v : list A) : size (u ++ v) = size u + size v.
Proof. unfold size. rewrite length_app. lia. Qed.

Lemma size_nil {A : Type} : size (@nil A) = 0.
Proof. reflexivity. Qed.

Lemma size_cons {A : Type} (a : A) (v : list A) : size (a :: v) = 1 + size v.
Proof. unfold size. cbn [List.length]. lia. Qed.

Lemma size_nonneg {A : Type} (v : list A) : 0 <= size v.
Proof. unfold size. lia. Qed.

Lemma at_index_in_range {A : Type} (v : list A) (i : Z) :
  0 <= i < size v -> exists a, at_index v i = Returns a.
Proof.
  intros [H0 H1]. unfold at_index.
  replace (0 <=? i) with true by (symmetry; apply Z.leb_le; exact H0).
  replace (i <? size v) with true by (symmetry; apply Z.ltb_lt; exact H1).
  cbn [andb].
  destruct (nth_error v (Z.to_nat i)) as [a|] eqn:E.
  - exists a. reflexivity.
  - apply nth_error_None in E. unfold size in H1. lia.
Qed.

Lemma at_index_Returns {A : Type} (v : list A) (i : Z) (a : A) :
  at_index v i = Returns a <->
  0 <= i < size v /\ nth_error v (Z.to_nat i) = Some a.
Proof.
  unfold at_index. split.
  - destruct (0 <=? i) eqn:E0; [|discriminate].
    destruct (i <? size v) eqn:E1; [|discriminate]. cbn [andb].
    apply Z.leb_le in E0. apply Z.ltb_lt in E1.
    destruct (nth_error v (Z.to_nat i)); [|discriminate].
    intros [= ->]. auto.
  - intros [[H0 H1] ->].
    apply Z.leb_le in H0. apply Z.ltb_lt in H1. rewrite H0, H1. reflexivity.
Qed.

Lemma at_index_not_Throws {A : Type} (v : list A) (i : Z) (e : exn) :
  at_index v i <> Throws e.
Proof.
  unfold at_index.
  destruct ((0 <=? i) && (i <? size v)); [|discriminate].
  destruct (nth_error v (Z.to_nat i)); discriminate.
Qed.

(** ** Triangle *)

Lemma vertices_three (t : Triangle) :
  size (vertices t) = 3 -> exists v0 v1 v2, vertices t = [v0; v1; v2].
Proof.
  unfold size. destruct (vertices t) as [|v0 [|v1 [|v2 [|v3 r]]]];
    cbn [List.length]; intros H; try lia.
  exists v0, v1, v2. reflexivity.
Qed.

(** With three vertices [calculate_facet_normal] is the unit vector of the
    cross product of the two edges that leave the first vertex. *)
Lemma calculate_facet_normal_three (v0 v1 v2 n : Point) :
  calculate_facet_normal (mkTriangle [v0; v1; v2] n) =
  unit_vector (cross_product (Point_sub v1 v0) (Point_sub v2 v0)).
Proof. reflexivity. Qed.

Lemma unit_vector_outcome (p : Point) :
  unit_vector p = Throws (runtime_error Msg.unit_vector) \/
  exists n, unit_vector p = Returns n.
Proof.
  unfold unit_vector. destruct (abs (norm p) <? EPS)%float.
  - left. reflexivity.
  - right. eexists. reflexivity.
Qed.

Lemma calculate_facet_normal_outcome (t : Triangle) :
  size (vertices t) = 3 ->
  calculate_facet_normal t = Throws (runtime_error Msg.unit_vector) \/
  exists n, calculate_facet_normal t = Returns n.
Proof.
  intros H. destruct (vertices_three t H) as (v0 & v1 & v2 & E).
  destruct t as [vs n]. cbn in E. subst vs.
  rewrite calculate_facet_normal_three. apply unit_vector_outcome.
Qed.

Lemma check_triangle_by_normal (t : Triangle) :
  size (vertices t) = 3 ->
  check_triangle t =
  match calculate_facet_normal t with
  | Returns n => Returns (Point_eq n (facet_normal t))
  | Throws e => Throws e
  | Undefined => Undefined
  | Diverges => Diverges
  end.
Proof.
  intros H. unfold check_triangle. rewrite H. cbn [Z.eqb Pos.eqb negb].
  destruct (calculate_facet_normal t) as [n|e| |] eqn:E; cbn [bind]; auto.
  unfold Point_neq. destruct (Point_eq n (facet_normal t)); reflexivity.
Qed.

Lemma check_triangle_wrong_count (t : Triangle) :
  size (vertices t) <> 3 -> check_triangle t = Returns false.
Proof.
  intros H. unfold check_triangle.
  apply Z.eqb_neq in H. rewrite H. reflexivity.
Qed.

(** [check_triangle] returns, or leaves by the exception of [unit_vector]. *)
Lemma check_triangle_outcomes (t : Triangle) :
  check_triangle t = Returns true \/ check_triangle t = Returns false \/
  check_triangle t = Throws (runtime_error Msg.unit_vector).
Proof.
  destruct (Z.eq_dec (size (vertices t)) 3) as [H3|H3].
  - rewrite (check_triangle_by_normal t H3).
    destruct (calculate_facet_normal_outcome t H3) as [E|[n E]]; rewrite E;
      [auto|].
    destruct (Point_eq n (facet_normal t)); auto.
  - rewrite (check_triangle_wrong_count t H3). auto.
Qed.

(** The three ways a call of [set_facet_normal] can go. *)
Lemma set_facet_normal_cases (this : Triangle) (p : Point) :
  set_facet_normal this p =
  if passes_unit_test p then (Returns tt, mkTriangle (vertices this) p)
  else if (abs (norm p) <? EPS)%float
       then (Throws (runtime_error Msg.unit_vector), this)
       else (Returns tt,
             mkTriangle (vertices this)
               (mkPoint (x p / norm p) (y p / norm p) (z p / norm p))).
Proof.
  unfold set_facet_normal, passes_unit_test, unit_vector.
  destruct (1.0 - abs (norm p) <? EPS)%float; [reflexivity|].
  destruct (abs (norm p) <? EPS)%float; reflexivity.
Qed.

(** A normal of magnitude 0.5 is brought to unit length before it is
    stored. *)
Lemma set_facet_normal_half :
  set_facet_normal Triangle_new (mkPoint 0.5 0 0) =
  (Returns tt, mkTriangle [] (mkPoint 1 0 0)).
Proof. vm_compute. reflexivity. Qed.

(** C1: the stored facet normal is meant to be of unit length after every
    call of [set_facet_normal]; the call with the normal (2, 0, 0), of
    magnitude 2, returns with that very vector stored, which is not within
    [EPS] of unit length. *)
Theorem set_facet_normal_magnitude_two_stored :
  set_facet_normal Triangle_new (mkPoint 2 0 0) =
    (Returns tt, mkTriangle [] (mkPoint 2 0 0))
  /\ norm (mkPoint 2 0 0) = 2%float
  /\ unit_length (mkPoint 2 0 0) = false.
Proof. repeat split; vm_compute; reflexivity. Qed.

(** C4, as stated, fails: with three coincident vertices [check_triangle]
    leaves by the exception of [unit_vector] and returns nothing. *)
Lemma check_triangle_degenerate_throws :
  check_triangle degenerate_triangle = Throws (runtime_error Msg.unit_vector)
  /\ ~ (exists valid, check_triangle degenerate_triangle = Returns valid).
Proof.
  assert (E : check_triangle degenerate_triangle =
              Throws (runtime_error Msg.unit_vector))
    by (vm_compute; reflexivity).
  split; [exact E|]. intros [valid H]. rewrite E in H. discriminate.
Qed.

(** When [check_triangle] throws: there are three vertices, and the norm
    of the cross product of the two edges that leave the first vertex is
    below [EPS]; the exception is that of [unit_vector]. *)
Lemma check_triangle_throws (t : Triangle) (e : exn) :
  check_triangle t = Throws e <->
  e = runtime_error Msg.unit_vector /\
  exists v0 v1 v2,
    vertices t = [v0; v1; v2] /\
    (abs (norm (cross_product (Point_sub v1 v0) (Point_sub v2 v0))) <? EPS)%float
    = true.
Proof.
  destruct (Z.eq_dec (size (vertices t)) 3) as [H3|H3].
  - rewrite (check_triangle_by_normal t H3).
    destruct (vertices_three t H3) as (v0 & v1 & v2 & E).
    destruct t as [vs fn]. cbn [vertices facet_normal] in *. subst vs.
    rewrite calculate_facet_normal_three. unfold unit_vector. cbv zeta.
    destruct (abs (norm (cross_product (Point_sub v1 v0) (Point_sub v2 v0)))
              <? EPS)%float eqn:En.
    + split.
      * intros [= <-]. split; [reflexivity|].
        exists v0, v1, v2. split; [reflexivity|exact En].
      * intros [-> _]. reflexivity.
    + split; [discriminate|].
      intros (_ & w0 & w1 & w2 & [= <- <- <-] & Hw).
      rewrite En in Hw. discriminate Hw.
  - rewrite (check_triangle_wrong_count t H3). split; [discriminate|].
    intros (_ & v0 & v1 & v2 & E & _). rewrite E in H3.
    exfalso. apply H3. reflexivity.
Qed.

(** C4 (amended): [check_triangle] returns valid exactly when there are
    three vertices and [calculate_facet_normal] returns a normal equal,
    within the tolerance, to the stored one; it throws exactly when there
    are three vertices and [calculate_facet_normal] throws, which is the
    exception of [unit_vector] and happens exactly when the cross product
    of the two edges that leave the first vertex has a norm below [EPS];
    in every other case it returns invalid. *)
Theorem check_triangle_gate (t : Triangle) :
  (check_triangle t = Returns true <->
     size (vertices t) = 3 /\
     exists n, calculate_facet_normal t = Returns n /\
               Point_eq n (facet_normal t) = true)
  /\ (forall e, check_triangle t = Throws e <->
        size (vertices t) = 3 /\ calculate_facet_normal t = Throws e)
  /\ (check_triangle t = Returns true \/ check_triangle t = Returns false \/
      check_triangle t = Throws (runtime_error Msg.unit_vector))
  /\ (forall e, check_triangle t = Throws e <->
        e = runtime_error Msg.unit_vector /\
        exists v0 v1 v2,
          vertices t = [v0; v1; v2] /\
          (abs (norm (cross_product (Point_sub v1 v0) (Point_sub v2 v0)))
           <? EPS)%float = true).
Proof.
  split; [|split; [|split]]; [| | |exact (check_triangle_throws t)];
  destruct (Z.eq_dec (size (vertices t)) 3) as [H3|H3].
  - rewrite (check_triangle_by_normal t H3).
    destruct (calculate_facet_normal_outcome t H3) as [E|[n E]]; rewrite E.
    + split; [discriminate|]. intros (_ & n & Hn & _). discriminate.
    + split.
      * intros [= H]. split; [exact H3|]. exists n. auto.
      * intros (_ & n' & [= <-] & Hn). rewrite Hn. reflexivity.
  - rewrite (check_triangle_wrong_count t H3).
    split; [discriminate|]. intros [H _]. contradiction.
  - rewrite (check_triangle_by_normal t H3).
    destruct (calculate_facet_normal_outcome t H3) as [E|[n E]]; rewrite E.
    + intros e. split; [intros [= <-]; split; [exact H3|reflexivity]|].
      intros [_ [= <-]]. reflexivity.
    + intros e. split; [discriminate|]. intros [_ H]. discriminate.
  - rewrite (check_triangle_wrong_count t H3).
    intros e. split; [discriminate|]. intros [H _]. contradiction.
  - rewrite (check_triangle_by_normal t H3).
    destruct (calculate_facet_normal_outcome t H3) as [E|[n E]]; rewrite E.
    + auto.
    + destruct (Point_eq n (facet_normal t)); auto.
  - rewrite (check_triangle_wrong_count t H3). auto.
Qed.

(** ** TriangleMesh *)

Lemma add_triangle_by_check (m : TriangleMesh) (t : Triangle) :
  add_triangle m t =
  match check_triangle t with
  | Returns true =>
      if triangle_count m <? LONG_MAX
      then (Returns tt,
            mkTriangleMesh (triangles m ++ [t]) (triangle_count m + 1)
                           (name m))
      else (Undefined, m)
  | Returns false => (Throws (runtime_error Msg.add_triangle), m)
  | Throws e => (Throws e, m)
  | Undefined => (Undefined, m)
  | Diverges => (Diverges, m)
  end.
Proof.
  unfold add_triangle, long_incr.
  destruct (check_triangle t) as [[|]|e| |]; try reflexivity.
  destruct (triangle_count m <? LONG_MAX); reflexivity.
Qed.

Lemma add_triangle_returned (m m' : TriangleMesh) (t : Triangle) :
  add_triangle m t = (Returns tt, m') ->
  check_triangle t = Returns true /\
  m' = mkTriangleMesh (triangles m ++ [t]) (triangle_count m + 1) (name m).
Proof.
  rewrite add_triangle_by_check.
  destruct (check_triangle t) as [[|]|e| |]; try discriminate.
  destruct (triangle_count m <? LONG_MAX); [|discriminate].
  intros [= <-]. auto.
Qed.

(** The invariant of [TriangleMesh]: the count is the length of the
    sequence, and every triangle in it passed [check_triangle]. *)
Lemma reachable_mesh_invariant (m : TriangleMesh) :
  reachable_mesh m ->
  triangle_count m = size (triangles m) /\
  Forall (fun t => check_triangle t = Returns true) (triangles m).
Proof.
  induction 1 as [|m n Hm [IHc IHv]|m m' t Hm [IHc IHv] Hadd].
  - split; [reflexivity|constructor].
  - split; assumption.
  - apply add_triangle_returned in Hadd. destruct Hadd as [Hvalid ->].
    cbn [triangle_count triangles]. split.
    + rewrite size_app. unfold size at 2. cbn [List.length]. lia.
    + apply Forall_app. split; [assumption|]. constructor; [assumption|constructor].
Qed.

(** C6, as stated, fails: offered a triangle of three coincident vertices,
    [add_triangle] does not fail with its own invalid-triangle error; the
    exception of [unit_vector] leaves it instead. *)
Lemma add_triangle_degenerate_throws :
  add_triangle TriangleMesh_new degenerate_triangle =
    (Throws (runtime_error Msg.unit_vector), TriangleMesh_new)
  /\ check_triangle degenerate_triangle <> Returns true
  /\ kind_of (runtime_error Msg.unit_vector) = Some DegenerateVector
  /\ fst (add_triangle TriangleMesh_new degenerate_triangle)
     <> Throws (runtime_error Msg.add_triangle).
Proof.
  assert (E : add_triangle TriangleMesh_new degenerate_triangle =
              (Throws (runtime_error Msg.unit_vector), TriangleMesh_new))
    by (vm_compute; reflexivity).
  split; [exact E|]. split; [|split].
  - vm_compute. discriminate.
  - reflexivity.
  - rewrite E. cbn [fst]. vm_compute. discriminate.
Qed.

(** C6 (amended): on a mesh built through its interface, [add_triangle]
    appends the triangle and increments the count exactly when
    [check_triangle] returns valid; when [check_triangle] returns invalid
    it fails with the invalid-triangle error, and when [check_triangle]
    itself throws, that exception leaves [add_triangle]; in both failing
    cases the mesh is unchanged.  The count equals the length of the
    sequence before and after the call. *)
Theorem add_triangle_gate (m : TriangleMesh) (t : Triangle) :
  reachable_mesh m ->
  triangle_count m = size (triangles m)
  /\ (check_triangle t = Returns true -> size (triangles m) < LONG_MAX ->
        add_triangle m t =
        (Returns tt,
         mkTriangleMesh (triangles m ++ [t]) (triangle_count m + 1) (name m)))
  /\ (check_triangle t = Returns false ->
        add_triangle m t = (Throws (runtime_error Msg.add_triangle), m)
        /\ kind_of (runtime_error Msg.add_triangle) = Some InvalidTriangle)
  /\ (forall e, check_triangle t = Throws e ->
        add_triangle m t = (Throws e, m))
  /\ (fst (add_triangle m t) = Returns tt -> check_triangle t = Returns true)
  /\ triangle_count (snd (add_triangle m t)) =
     size (triangles (snd (add_triangle m t))).
Proof.
  intros Hm. destruct (reachable_mesh_invariant m Hm) as [Hc _].
  rewrite add_triangle_by_check.
  split; [exact Hc|]. split; [|split; [|split; [|split]]].
  - intros -> Hlt. rewrite Hc.
    replace (size (triangles m) <? LONG_MAX) with true
      by (symmetry; apply Z.ltb_lt; exact Hlt).
    reflexivity.
  - intros ->. split; reflexivity.
  - intros e ->. reflexivity.
  - destruct (check_triangle t) as [[|]|e| |]; cbn [fst];
      try discriminate; reflexivity.
  - destruct (check_triangle t) as [[|]|e| |]; cbn [snd]; try exact Hc.
    destruct (triangle_count m <? LONG_MAX); cbn [snd]; [|exact Hc].
    cbn [triangle_count triangles]. rewrite size_app, Hc.
    unfold size at 3. cbn [List.length]. lia.
Qed.

(** The right triangle with its right-hand normal, added to the empty mesh. *)
Lemma add_triangle_gate_witness :
  reachable_mesh TriangleMesh_new
  /\ add_triangle TriangleMesh_new right_triangle =
     (Returns tt, mkTriangleMesh [right_triangle] 1 "").
Proof.
  split; [exact reach_new|].
  destruct (add_triangle_gate TriangleMesh_new right_triangle reach_new)
    as (_ & H & _).
  apply H; vm_compute; reflexivity.
Defined.
(** ** STLParser *)

Ltac break_match :=
  match goal with
  | H : context [match ?c with _ => _ end] |- _ =>
      let E := fresh "E" in destruct c eqn:E
  | |- context [match ?c with _ => _ end] =>
      let E := fresh "E" in destruct c eqn:E
  end.

Lemma State_eqb_eq (a b : State) : State_eqb a b = true <-> a = b.
Proof. destruct a, b; cbn; split; intros H; congruence. Qed.

(** White space alone holds no token. *)
Lemma tokenize_spaces (s : string) :
  (forall c, In c (list_ascii_of_string s) -> isspace c = true) ->
  tokenize s = [].
Proof.
  unfold tokenize. induction s as [|c s IH]; intros H.
  - reflexivity.
  - cbn [extract_words]. rewrite (H c) by (left; reflexivity).
    cbn [String.eqb]. apply IH. intros c' Hc'. apply H. right. exact Hc'.
Qed.

Section ParserProperties.

Variable stod_conv : string -> stod_result.

Lemma to_triangle_mesh_by_run (this : STLParser) (mesh : TriangleMesh)
    (r : result unit) (st : State) (l : Locals) :
  run_tokens stod_conv (tokenize (content this)) = (r, st, l) ->
  to_triangle_mesh stod_conv this mesh =
  let this' := mkSTLParser (content this) (tokenize (content this)) st in
  match r with
  | Returns _ =>
      if State_eqb st END then (Returns tt, this', mesh_tmp l)
      else (Throws (runtime_error Msg.never_ended), this', mesh)
  | Throws e => (Throws e, this', mesh)
  | Undefined => (Undefined, this', mesh)
  | Diverges => (Diverges, this', mesh)
  end.
Proof.
  intros H. unfold to_triangle_mesh. rewrite H. cbv zeta.
  destruct r; try reflexivity. destruct (State_eqb st END); reflexivity.
Qed.

(** C3: the caller's mesh is assigned in one place only, after the loop
    was left normally in state [END]; then it becomes the working mesh.
    However else the call ends, the caller's mesh is what it was. *)
Theorem to_triangle_mesh_atomic (this : STLParser) (mesh : TriangleMesh) :
  let '(rl, st, l) := run_tokens stod_conv (tokenize (content this)) in
  let '(r, this', mesh') := to_triangle_mesh stod_conv this mesh in
  (r = Returns tt <-> rl = Returns tt /\ st = END)
  /\ state this' = st
  /\ (r = Returns tt -> mesh' = mesh_tmp l)
  /\ (r <> Returns tt -> mesh' = mesh).
Proof.
  destruct (run_tokens stod_conv (tokenize (content this))) as [[rl st] l] eqn:E.
  rewrite (to_triangle_mesh_by_run this mesh rl st l E). cbv zeta.
  destruct rl as [[]|e| |].
  - destruct (State_eqb st END) eqn:Est.
    + apply State_eqb_eq in Est. subst st.
      repeat split; auto; intros H; contradiction.
    + assert (st <> END) by (intros ->; destruct END; discriminate).
      split; [split; [discriminate|intros [_ ?]; contradiction]|].
      split; [reflexivity|]. split; [discriminate|reflexivity].
  - split; [split; [discriminate|intros [? _]; discriminate]|].
    split; [reflexivity|]. split; [discriminate|reflexivity].
  - split; [split; [discriminate|intros [? _]; discriminate]|].
    split; [reflexivity|]. split; [discriminate|reflexivity].
  - split; [split; [discriminate|intros [? _]; discriminate]|].
    split; [reflexivity|]. split; [discriminate|reflexivity].
Qed.

(** C7: when the loop is left because the tokens are used up and the
    state is not [END], [to_triangle_mesh] throws the error the
    specification calls UnterminatedSolid, and the caller's mesh is
    untouched. *)
Theorem unterminated_solid (this : STLParser) (mesh : TriangleMesh)
    (st : State) (l : Locals) :
  run_tokens stod_conv (tokenize (content this)) = (Returns tt, st, l) ->
  st <> END ->
  to_triangle_mesh stod_conv this mesh =
    (Throws (runtime_error Msg.never_ended),
     mkSTLParser (content this) (tokenize (content this)) st, mesh)
  /\ kind_of (runtime_error Msg.never_ended) = Some UnterminatedSolid.
Proof.
  intros Hrun Hst. rewrite (to_triangle_mesh_by_run this mesh _ _ _ Hrun).
  cbv zeta. destruct (State_eqb st END) eqn:E.
  - apply State_eqb_eq in E. contradiction.
  - split; reflexivity.
Qed.

End ParserProperties.

(** The example file of the specification without its last line: one
    well-formed facet, then the end of the tokens in state [SOLID]. *)
Lemma unterminated_solid_witness :
  run_tokens Stod.stod_model (tokenize cube_face_unterminated) =
    (Returns tt, SOLID, cube_face_final_locals)
  /\ SOLID <> END
  /\ fst (fst (to_triangle_mesh Stod.stod_model
                 (parser_on cube_face_unterminated) TriangleMesh_new)) =
     Throws (runtime_error Msg.never_ended).
Proof.
  assert (Hrun : run_tokens Stod.stod_model
                   (tokenize (content (parser_on cube_face_unterminated))) =
                 (Returns tt, SOLID, cube_face_final_locals))
    by (vm_compute; reflexivity).
  assert (Hst : SOLID <> END) by discriminate.
  split; [exact Hrun|]. split; [exact Hst|].
  destruct (unterminated_solid Stod.stod_model
              (parser_on cube_face_unterminated) TriangleMesh_new
              SOLID cube_face_final_locals Hrun Hst) as [H _].
  rewrite H. reflexivity.
Defined.
(** ** The loop of [to_triangle_mesh] *)

Lemma at_index_app_shift {A : Type} (pre rest : list A) (i : Z) :
  0 <= i -> at_index (pre ++ rest) (i + size pre) = at_index rest i.
Proof.
  intros Hi. unfold at_index. rewrite size_app.
  pose proof (size_nonneg pre) as Hp.
  replace (0 <=? i + size pre) with true by (symmetry; apply Z.leb_le; lia).
  replace (0 <=? i) with true by (symmetry; apply Z.leb_le; lia).
  replace (i + size pre <? size pre + size rest) with (i <? size rest)
    by (destruct (Z.ltb_spec i (size rest));
        destruct (Z.ltb_spec (i + size pre) (size pre + size rest)); lia).
  destruct (i <? size rest); cbn [andb]; [|reflexivity].
  rewrite nth_error_app2 by (unfold size in *; lia).
  replace (Z.to_nat (i + size pre) - List.length pre)%nat with (Z.to_nat i)
    by (unfold size in *; lia).
  reflexivity.
Qed.

Lemma at_index_app_extend {A : Type} (first rest : list A) (i : Z) (a : A) :
  at_index first i = Returns a -> at_index (first ++ rest) i = Returns a.
Proof.
  intros H. apply at_index_Returns in H. destruct H as [[H0 H1] Hn].
  apply at_index_Returns. rewrite size_app.
  pose proof (size_nonneg rest). split; [lia|].
  rewrite nth_error_app1 by (unfold size in *; lia). exact Hn.
Qed.

Lemma addressable_app_l (u v : list string) :
  addressable (u ++ v) -> addressable u.
Proof.
  unfold addressable. rewrite size_app. pose proof (size_nonneg v). lia.
Qed.

Lemma addressable_app_r (u v : list string) :
  addressable (u ++ v) -> addressable v.
Proof.
  unfold addressable. rewrite size_app. pose proof (size_nonneg u). lia.
Qed.

Section LoopProperties.

Variable stod_conv : string -> stod_result.

Lemma while_loop_exit (fuel : nat) (toks : list string) (st : State)
    (l : Locals) :
  size toks <= cnt l -> while_loop stod_conv fuel toks st l = (Returns tt, st, l).
Proof.
  intros H. destruct fuel; cbn [while_loop];
    replace (cnt l <? size toks) with false
      by (symmetry; apply Z.ltb_ge; exact H); reflexivity.
Qed.

Lemma while_loop_step (fuel : nat) (toks : list string) (st : State)
    (l : Locals) :
  cnt l < size toks ->
  while_loop stod_conv (S fuel) toks st l =
  match switch_body stod_conv toks st l with
  | Returns (st', l') => while_loop stod_conv fuel toks st' (incr_cnt l')
  | Throws e => (Throws e, st, l)
  | Undefined => (Undefined, st, l)
  | Diverges => (Diverges, st, l)
  end.
Proof.
  intros H. cbn [while_loop].
  replace (cnt l <? size toks) with true
    by (symmetry; apply Z.ltb_lt; exact H).
  reflexivity.
Qed.

Lemma parse_coordinates_returned (toks : list string) (i : Z) (p : Point) :
  parse_coordinates stod_conv toks i = Returns p ->
  ulong_add i 2 < size toks.
Proof.
  unfold parse_coordinates.
  destruct (Z.ltb_spec (ulong_add i 2) (size toks)); [auto|discriminate].
Qed.

(** One iteration never moves [cnt] backwards, nor beyond the end. *)
Lemma switch_body_advance (toks : list string) (st st' : State)
    (l l' : Locals) :
  addressable toks -> 0 <= cnt l < size toks ->
  switch_body stod_conv toks st l = Returns (st', l') ->
  cnt l <= cnt l' <= size toks.
Proof.
  unfold addressable. intros Ha Hc H.
  assert (A1 : ulong_add (cnt l) 1 = cnt l + 1)
    by (apply ulong_add_small; lia).
  assert (A2 : ulong_add (cnt l) 2 = cnt l + 2)
    by (apply ulong_add_small; lia).
  assert (A3 : ulong_add (cnt l) 3 = cnt l + 3)
    by (apply ulong_add_small; lia).
  assert (A12 : ulong_add (cnt l + 1) 2 = cnt l + 3)
    by (rewrite ulong_add_small; lia).
  destruct st; cbn [switch_body] in H; unfold call in H; unfold bind in H;
    repeat (break_match; try discriminate);
    repeat match goal with
           | E : parse_coordinates _ _ _ = Returns _ |- _ =>
               apply parse_coordinates_returned in E
           | E : (_ <? _) = true |- _ => apply Z.ltb_lt in E
           end;
    injection H as <- <-; cbn [cnt]; rewrite ?A1, ?A2, ?A3, ?A12 in *; lia.
Qed.

End LoopProperties.
(** ** Tokens before the keyword [solid] *)

Section LeadingTokens.

Variable stod_conv : string -> stod_result.

Lemma parse_coordinates_shift (pre rest : list string) (i : Z) :
  0 <= i -> i + size pre + 2 < 2 ^ 64 ->
  parse_coordinates stod_conv (pre ++ rest) (i + size pre) =
  parse_coordinates stod_conv rest i.
Proof.
  intros Hi Hb. pose proof (size_nonneg pre) as Hp.
  unfold parse_coordinates.
  rewrite !(ulong_add_small (i + size pre)) by lia.
  rewrite !(ulong_add_small i) by lia.
  rewrite size_app.
  replace (i + size pre + 2 <? size pre + size rest) with (i + 2 <? size rest)
    by (destruct (Z.ltb_spec (i + 2) (size rest));
        destruct (Z.ltb_spec (i + size pre + 2) (size pre + size rest)); lia).
  replace (i + size pre + 1) with (i + 1 + size pre) by lia.
  replace (i + size pre + 2) with (i + 2 + size pre) by lia.
  rewrite !at_index_app_shift by lia. reflexivity.
Qed.

Lemma switch_body_shift (pre rest : list string) (st : State) (l : Locals) :
  addressable (pre ++ rest) -> 0 <= cnt l < size rest ->
  switch_body stod_conv (pre ++ rest) st (shift_cnt (size pre) l) =
  shift_result (size pre) (switch_body stod_conv rest st l).
Proof.
  unfold addressable. rewrite size_app. intros Ha Hc.
  pose proof (size_nonneg pre) as Hp.
  assert (S1 : forall c, 0 <= c <= 3 ->
            ulong_add (cnt l + size pre) c = ulong_add (cnt l) c + size pre).
  { intros c Hc'. rewrite !ulong_add_small by lia. lia. }
  assert (U1 : forall c, 0 <= c <= 3 -> 0 <= ulong_add (cnt l) c)
    by (intros c Hc'; rewrite ulong_add_small by lia; lia).
  assert (L1 : (ulong_add (cnt l) 1 + size pre <? size pre + size rest) =
               (ulong_add (cnt l) 1 <? size rest)).
  { destruct (Z.ltb_spec (ulong_add (cnt l) 1) (size rest));
      destruct (Z.ltb_spec (ulong_add (cnt l) 1 + size pre)
                           (size pre + size rest)); lia. }
  destruct st; cbn [switch_body shift_cnt cnt tri mesh_tmp];
    rewrite ?S1 by lia; rewrite ?size_app, ?L1;
    rewrite ?at_index_app_shift by (try apply U1; lia);
    rewrite ?parse_coordinates_shift
      by (try apply U1; rewrite ?ulong_add_small by lia; lia).
  - destruct (at_index rest (cnt l)) as [tok| | |]; cbn [bind shift_result];
      try reflexivity.
    destruct (String.eqb tok "solid"); [|reflexivity].
    destruct (ulong_add (cnt l) 1 <? size rest); [|reflexivity].
    destruct (at_index rest (ulong_add (cnt l) 1)) as [nxt| | |];
      cbn [bind shift_result]; try reflexivity.
    destruct (String.eqb nxt "facet"); reflexivity.
  - destruct (at_index rest (cnt l)) as [tok| | |]; cbn [bind shift_result];
      try reflexivity.
    destruct (String.eqb tok "facet"); [reflexivity|].
    destruct (String.eqb tok "endsolid"); reflexivity.
  - destruct (at_index rest (cnt l)) as [tok| | |]; cbn [bind shift_result];
      try reflexivity.
    destruct (String.eqb tok "normal"); [reflexivity|].
    destruct (String.eqb tok "endfacet"); reflexivity.
  - destruct (parse_coordinates stod_conv rest (cnt l)) as [p| | |];
      cbn [bind shift_result]; try reflexivity.
    unfold call. destruct (fst (set_facet_normal (tri l) p));
      reflexivity.
  - destruct (at_index rest (cnt l)) as [tok| | |]; cbn [bind shift_result];
      try reflexivity.
    destruct (String.eqb tok "outer"); reflexivity.
  - destruct (at_index rest (cnt l)) as [tok| | |]; cbn [bind shift_result];
      try reflexivity.
    destruct (String.eqb tok "loop"); reflexivity.
  - destruct (at_index rest (cnt l)) as [tok| | |]; cbn [bind shift_result];
      try reflexivity.
    destruct (String.eqb tok "vertex").
    + destruct (parse_coordinates stod_conv rest (ulong_add (cnt l) 1))
        as [p| | |]; cbn [bind shift_result]; try reflexivity.
      unfold call. destruct (fst (add_vertex (tri l) p)); reflexivity.
    + destruct (String.eqb tok "endloop"); [|reflexivity].
      destruct (check_triangle (tri l)) as [[|]| | |];
        cbn [bind shift_result]; try reflexivity.
      unfold call. destruct (fst (add_triangle (mesh_tmp l) (tri l)));
        reflexivity.
  - cbn [shift_result]. unfold shift_cnt. cbn [cnt tri mesh_tmp].
    do 3 f_equal. lia.
Qed.

Lemma while_loop_shift (pre rest : list string) (fuel : nat) :
  addressable (pre ++ rest) ->
  forall (st : State) (l : Locals),
  0 <= cnt l <= size rest + 1 ->
  while_loop stod_conv fuel (pre ++ rest) st (shift_cnt (size pre) l) =
  shift_outcome (size pre) (while_loop stod_conv fuel rest st l).
Proof.
  intros Ha. pose proof Ha as Ha'. unfold addressable in Ha'.
  rewrite size_app in Ha'. pose proof (size_nonneg pre) as Hp.
  induction fuel as [|fuel IH]; intros st l Hc.
  - cbn [while_loop shift_cnt cnt]. rewrite size_app.
    replace (cnt l + size pre <? size pre + size rest)
      with (cnt l <? size rest)
      by (destruct (Z.ltb_spec (cnt l) (size rest));
          destruct (Z.ltb_spec (cnt l + size pre) (size pre + size rest));
          lia).
    destruct (cnt l <? size rest); reflexivity.
  - destruct (Z.lt_ge_cases (cnt l) (size rest)) as [Hlt|Hge].
    + rewrite !while_loop_step
        by (cbn [shift_cnt cnt]; rewrite ?size_app; lia).
      rewrite switch_body_shift by (auto; lia).
      destruct (switch_body stod_conv rest st l) as [[st' l']|e| |] eqn:E;
        cbn [shift_result shift_outcome]; try reflexivity.
      pose proof (switch_body_advance stod_conv rest st st' l l'
                    (addressable_app_r pre rest Ha) (conj (proj1 Hc) Hlt) E)
        as Hadv.
      replace (incr_cnt (shift_cnt (size pre) l'))
        with (shift_cnt (size pre) (incr_cnt l')).
      * apply IH. cbn [incr_cnt cnt]. rewrite ulong_add_small by lia. lia.
      * unfold incr_cnt, shift_cnt. cbn [cnt tri mesh_tmp].
        rewrite !ulong_add_small by lia. f_equal. lia.
    + rewrite !while_loop_exit
        by (cbn [shift_cnt cnt]; rewrite ?size_app; lia).
      reflexivity.
Qed.

(** In state [OUTSIDE] a token other than [solid] changes nothing. *)
Lemma switch_body_outside_other (toks : list string) (l : Locals)
    (tok : string) :
  at_index toks (cnt l) = Returns tok -> tok <> "solid" ->
  switch_body stod_conv toks OUTSIDE l = Returns (OUTSIDE, l).
Proof.
  intros Hat Hne. cbn [switch_body]. rewrite Hat. cbn [bind].
  apply String.eqb_neq in Hne. rewrite Hne. reflexivity.
Qed.

Lemma while_loop_skip (pre : list string) :
  Forall (fun tok => tok <> "solid") pre ->
  forall (done rest : list string) (fuel : nat) (t : Triangle)
         (m : TriangleMesh),
  addressable (done ++ pre ++ rest) ->
  while_loop stod_conv (List.length pre + fuel) (done ++ pre ++ rest)
             OUTSIDE (mkLocals (size done) t m) =
  while_loop stod_conv fuel (done ++ pre ++ rest)
             OUTSIDE (mkLocals (size done + size pre) t m).
Proof.
  induction 1 as [|tok pre Hne Hpre IH]; intros done rest fuel t m Ha.
  - cbn [List.length Nat.add]. rewrite size_nil, Z.add_0_r. reflexivity.
  - pose proof Ha as Ha'. unfold addressable in Ha'.
    cbn [app] in Ha'. rewrite size_app, size_cons in Ha'.
    pose proof (size_nonneg done). pose proof (size_nonneg (pre ++ rest)).
    cbn [List.length Nat.add app].
    rewrite while_loop_step
      by (cbn [cnt]; rewrite size_app, size_cons; lia).
    rewrite (switch_body_outside_other _ _ tok); [|clear IH|exact Hne].
    + unfold incr_cnt. cbn [cnt tri mesh_tmp].
      rewrite ulong_add_small by lia.
      replace (done ++ tok :: pre ++ rest)
        with ((done ++ [tok]) ++ pre ++ rest)
        by (rewrite <- app_assoc; reflexivity).
      replace (size done + 1) with (size (done ++ [tok]))
        by (rewrite size_app, size_cons, size_nil; lia).
      rewrite IH
        by (rewrite <- app_assoc; exact Ha).
      do 2 f_equal. rewrite !size_app, !size_cons, size_nil. lia.
    + cbn [cnt]. apply at_index_Returns. split.
      * rewrite size_app, size_cons. lia.
      * unfold size. rewrite Nat2Z.id.
        rewrite nth_error_app2 by lia. rewrite Nat.sub_diag. reflexivity.
Qed.

(** Tokens other than [solid] at the head of the sequence only move the
    position: the loop otherwise runs as it does without them. *)
Lemma run_tokens_skip (pre rest : list string) :
  Forall (fun tok => tok <> "solid") pre ->
  addressable (pre ++ rest) ->
  run_tokens stod_conv (pre ++ rest) =
  shift_outcome (size pre) (run_tokens stod_conv rest).
Proof.
  intros Hpre Ha. unfold run_tokens.
  rewrite length_app.
  replace (S (List.length pre + List.length rest))
    with (List.length pre + S (List.length rest))%nat by lia.
  pose proof (while_loop_skip pre Hpre [] rest (S (List.length rest))
                Triangle_new TriangleMesh_new) as Hskip.
  cbn [app] in Hskip. rewrite size_nil in Hskip.
  unfold initial_locals. rewrite (Hskip Ha).
  change (mkLocals (0 + size pre) Triangle_new TriangleMesh_new)
    with (shift_cnt (size pre) (mkLocals 0 Triangle_new TriangleMesh_new)).
  apply while_loop_shift; [exact Ha|].
  cbn [cnt]. pose proof (size_nonneg rest). lia.
Qed.

(** C10: tokens other than [solid] in front of the first [solid] are
    passed over one by one in state [OUTSIDE], each leaving the state and
    the locals as they were, and the call ends as it does on the token
    sequence without them: same outcome, same final state, same mesh. *)
Theorem leading_tokens_skipped (this this' : STLParser) (mesh : TriangleMesh)
    (pre : list string) :
  tokenize (content this) = pre ++ tokenize (content this') ->
  Forall (fun tok => tok <> "solid") pre ->
  addressable (tokenize (content this)) ->
  (forall (i : nat) (tok : string) (t : Triangle) (m : TriangleMesh),
     nth_error pre i = Some tok ->
     switch_body stod_conv (tokenize (content this)) OUTSIDE
                 (mkLocals (Z.of_nat i) t m) =
     Returns (OUTSIDE, mkLocals (Z.of_nat i) t m))
  /\ run_tokens stod_conv (tokenize (content this)) =
     shift_outcome (size pre) (run_tokens stod_conv (tokenize (content this')))
  /\ observable (to_triangle_mesh stod_conv this mesh) =
     observable (to_triangle_mesh stod_conv this' mesh).
Proof.
  intros Htok Hpre Ha.
  assert (Hrun : run_tokens stod_conv (tokenize (content this)) =
                 shift_outcome (size pre)
                   (run_tokens stod_conv (tokenize (content this'))))
    by (rewrite Htok; apply run_tokens_skip; [exact Hpre|rewrite <- Htok; exact Ha]).
  split; [|split; [exact Hrun|]].
  - intros i tok t m Hi.
    apply switch_body_outside_other with (tok := tok).
    + cbn [cnt]. apply at_index_Returns.
      assert (i < List.length pre)%nat
        by (apply nth_error_Some; rewrite Hi; discriminate).
      rewrite Htok, size_app. pose proof (size_nonneg (tokenize (content this'))).
      split; [unfold size at 1; lia|].
      rewrite Nat2Z.id, nth_error_app1 by assumption. exact Hi.
    + rewrite Forall_forall in Hpre. apply Hpre.
      apply nth_error_In with (n := i). exact Hi.
  - destruct (run_tokens stod_conv (tokenize (content this')))
      as [[r st] l] eqn:E.
    cbn [shift_outcome] in Hrun.
    rewrite (to_triangle_mesh_by_run stod_conv this mesh _ _ _ Hrun).
    rewrite (to_triangle_mesh_by_run stod_conv this' mesh _ _ _ E).
    cbv zeta. destruct r; try reflexivity.
    destruct (State_eqb st END); reflexivity.
Qed.

End LeadingTokens.

(** Three words in front of the example file of the specification. *)
Lemma leading_tokens_skipped_witness :
  tokenize (leading_text ++ cube_face) =
    ["exported"; "by"; "cad"] ++ tokenize cube_face
  /\ observable (to_triangle_mesh Stod.stod_model
                   (parser_on (leading_text ++ cube_face)) TriangleMesh_new) =
     observable (to_triangle_mesh Stod.stod_model
                   (parser_on cube_face) TriangleMesh_new).
Proof.
  assert (Htok : tokenize (content (parser_on (leading_text ++ cube_face))) =
                 ["exported"; "by"; "cad"] ++
                 tokenize (content (parser_on cube_face)))
    by (vm_compute; reflexivity).
  split; [exact Htok|].
  apply (leading_tokens_skipped Stod.stod_model
           (parser_on (leading_text ++ cube_face)) (parser_on cube_face)
           TriangleMesh_new ["exported"; "by"; "cad"] Htok).
  - repeat constructor; discriminate.
  - vm_compute. reflexivity.
Defined.
(** ** Tokens after the end of the solid *)

Section TrailingTokens.

Variable stod_conv : string -> stod_result.

Lemma parse_coordinates_extend (first rest : list string) (i : Z)
    (p : Point) :
  parse_coordinates stod_conv first i = Returns p ->
  parse_coordinates stod_conv (first ++ rest) i = Returns p.
Proof.
  unfold parse_coordinates. intros H.
  destruct (Z.ltb_spec (ulong_add i 2) (size first)) as [Hlt|]; [|discriminate].
  rewrite size_app. pose proof (size_nonneg rest).
  replace (ulong_add i 2 <? size first + size rest) with true
    by (symmetry; apply Z.ltb_lt; lia).
  destruct (at_index first i) as [tx|e| |] eqn:Ex;
    [|destruct (at_index_not_Throws _ _ _ Ex)|discriminate|discriminate].
  rewrite (at_index_app_extend first rest i tx Ex).
  cbn [bind] in H |- *.
  destruct (stod stod_conv tx) as [cx|ex| |]; cbn [bind] in H |- *;
    try exact H.
  destruct (at_index first (ulong_add i 1)) as [ty|e| |] eqn:Ey;
    [|destruct (at_index_not_Throws _ _ _ Ey)|discriminate|discriminate].
  rewrite (at_index_app_extend first rest _ ty Ey).
  cbn [bind] in H |- *.
  destruct (stod stod_conv ty) as [cy|ey| |]; cbn [bind] in H |- *;
    try exact H.
  destruct (at_index first (ulong_add i 2)) as [tz|e| |] eqn:Ez;
    [|destruct (at_index_not_Throws _ _ _ Ez)|discriminate|discriminate].
  rewrite (at_index_app_extend first rest _ tz Ez).
  exact H.
Qed.

(** Outside state [END], an iteration that returns on a token sequence
    returns the same on any extension of it. *)
Lemma switch_body_extend (first rest : list string) (st st' : State)
    (l l' : Locals) :
  st <> END ->
  switch_body stod_conv first st l = Returns (st', l') ->
  switch_body stod_conv (first ++ rest) st l = Returns (st', l').
Proof.
  intros Hst H. pose proof (size_nonneg rest) as Hr.
  destruct st; try contradiction; cbn [switch_body] in H |- *;
    try (destruct (at_index first (cnt l)) as [tok| | |] eqn:Et;
         try discriminate;
         rewrite (at_index_app_extend first rest _ tok Et);
         cbn [bind] in H |- *);
    try exact H.
  - destruct (String.eqb tok "solid"); [|exact H].
    destruct (Z.ltb_spec (ulong_add (cnt l) 1) (size first)) as [Hlt|];
      [|discriminate].
    rewrite size_app.
    replace (ulong_add (cnt l) 1 <? size first + size rest) with true
      by (symmetry; apply Z.ltb_lt; lia).
    destruct (at_index first (ulong_add (cnt l) 1)) as [nxt| | |] eqn:En;
      try discriminate.
    rewrite (at_index_app_extend first rest _ nxt En). exact H.
  - destruct (parse_coordinates stod_conv first (cnt l)) as [p| | |] eqn:Ep;
      try discriminate.
    rewrite (parse_coordinates_extend first rest _ p Ep). exact H.
  - destruct (String.eqb tok "vertex"); [|exact H].
    destruct (parse_coordinates stod_conv first (ulong_add (cnt l) 1))
      as [p| | |] eqn:Ep; try discriminate.
    rewrite (parse_coordinates_extend first rest _ p Ep). exact H.
Qed.

(** From state [END] the loop is left in [END] with the triangle and the
    mesh it had: the remaining tokens are not looked at. *)
Lemma while_loop_END (toks : list string) (fuel : nat) (l : Locals) :
  addressable toks -> 0 <= cnt l ->
  exists l', while_loop stod_conv (S fuel) toks END l = (Returns tt, END, l')
             /\ tri l' = tri l /\ mesh_tmp l' = mesh_tmp l.
Proof.
  unfold addressable. intros Ha Hc. pose proof (size_nonneg toks).
  destruct (Z.lt_ge_cases (cnt l) (size toks)) as [Hlt|Hge].
  - rewrite while_loop_step by exact Hlt. cbn [switch_body].
    rewrite while_loop_exit
      by (cbn [incr_cnt cnt]; rewrite ulong_add_small by lia; lia).
    eexists. split; [reflexivity|]. split; reflexivity.
  - rewrite while_loop_exit by exact Hge.
    exists l. auto.
Qed.

Lemma while_loop_extend (first rest : list string) :
  addressable (first ++ rest) ->
  forall (fuel : nat) (st : State) (l l' : Locals),
  0 <= cnt l ->
  while_loop stod_conv fuel first st l = (Returns tt, END, l') ->
  forall fuel', (fuel < fuel')%nat ->
  exists l'', while_loop stod_conv fuel' (first ++ rest) st l =
                (Returns tt, END, l'')
              /\ tri l'' = tri l' /\ mesh_tmp l'' = mesh_tmp l'.
Proof.
  intros Ha. pose proof (addressable_app_l _ _ Ha) as Hf.
  induction fuel as [|fuel IH]; intros st l l' Hc Hrun fuel' Hfuel;
    (destruct fuel' as [|fuel']; [lia|]);
    (destruct (Z.lt_ge_cases (cnt l) (size first)) as [Hlt|Hge];
     [|rewrite while_loop_exit in Hrun by exact Hge;
       injection Hrun as -> ->;
       apply while_loop_END; assumption]).
  - cbn [while_loop] in Hrun.
    replace (cnt l <? size first) with true in Hrun
      by (symmetry; apply Z.ltb_lt; exact Hlt).
    discriminate.
  - destruct (State_eqb st END) eqn:Est.
    + apply State_eqb_eq in Est. subst st.
      destruct (while_loop_END first fuel l Hf Hc) as (l0 & H0 & Ht & Hm).
      rewrite H0 in Hrun. injection Hrun as <-.
      destruct (while_loop_END (first ++ rest) fuel' l Ha Hc)
        as (l2 & H2 & Ht2 & Hm2).
      exists l2. rewrite H2. split; [reflexivity|]. split; congruence.
    + assert (Hst : st <> END)
        by (intros ->; cbn in Est; discriminate).
      rewrite while_loop_step in Hrun by exact Hlt.
      destruct (switch_body stod_conv first st l) as [[st1 l1]|e| |] eqn:E;
        try discriminate.
      rewrite while_loop_step
        by (rewrite size_app; pose proof (size_nonneg rest); lia).
      rewrite (switch_body_extend first rest st st1 l l1 Hst E).
      apply (IH st1 (incr_cnt l1) l'); [|exact Hrun|lia].
      pose proof (switch_body_advance stod_conv first st st1 l l1 Hf
                    (conj Hc Hlt) E).
      cbn [incr_cnt cnt]. unfold addressable in Hf.
      rewrite ulong_add_small by lia. lia.
Qed.

(** C8: when the tokens up to some point parse to a mesh on their own,
    which means that the solid they hold was ended by [endsolid], any
    tokens that follow change nothing: the call returns with the same mesh,
    in state [END], whatever those tokens are. *)
Theorem later_solids_ignored (this this' : STLParser)
    (mesh first_mesh : TriangleMesh) (p : STLParser) (rest : list string) :
  tokenize (content this') = tokenize (content this) ++ rest ->
  addressable (tokenize (content this')) ->
  to_triangle_mesh stod_conv this mesh = (Returns tt, p, first_mesh) ->
  observable (to_triangle_mesh stod_conv this' mesh) =
  (Returns tt, END, first_mesh).
Proof.
  intros Htok Ha Hfirst.
  destruct (run_tokens stod_conv (tokenize (content this)))
    as [[r st] l] eqn:E.
  rewrite (to_triangle_mesh_by_run stod_conv this mesh _ _ _ E) in Hfirst.
  cbv zeta in Hfirst.
  destruct r as [[]|e| |]; try discriminate.
  destruct (State_eqb st END) eqn:Est; [|discriminate].
  apply State_eqb_eq in Est. subst st. injection Hfirst as _ <-.
  destruct rest as [|tok rest].
  - rewrite app_nil_r in Htok. rewrite <- Htok in E.
    rewrite (to_triangle_mesh_by_run stod_conv this' mesh _ _ _ E).
    reflexivity.
  - rewrite Htok in Ha.
    destruct (while_loop_extend _ (tok :: rest) Ha
                (S (List.length (tokenize (content this))))
                OUTSIDE initial_locals l (Z.le_refl 0) E
                (S (List.length (tokenize (content this) ++ tok :: rest))))
      as (l2 & H2 & _ & Hm).
    { rewrite length_app. cbn [List.length]. lia. }
    fold (run_tokens stod_conv (tokenize (content this) ++ tok :: rest)) in H2.
    rewrite <- Htok in H2.
    rewrite (to_triangle_mesh_by_run stod_conv this' mesh _ _ _ H2).
    cbn. rewrite Hm. reflexivity.
Qed.

End TrailingTokens.

(** Two solids in one file; the second, alone, is rejected for its normal. *)
Lemma later_solids_ignored_witness :
  tokenize two_solids = tokenize cube_face ++ tokenize second_solid
  /\ fst (fst (to_triangle_mesh Stod.stod_model (parser_on second_solid)
                 TriangleMesh_new)) =
     Throws (runtime_error Msg.invalid_triangle)
  /\ observable (to_triangle_mesh Stod.stod_model (parser_on two_solids)
                   TriangleMesh_new) =
     (Returns tt, END, cube_face_mesh).
Proof.
  assert (Htok : tokenize (content (parser_on two_solids)) =
                 tokenize (content (parser_on cube_face)) ++
                 tokenize second_solid)
    by (vm_compute; reflexivity).
  split; [exact Htok|]. split; [vm_compute; reflexivity|].
  apply (later_solids_ignored Stod.stod_model (parser_on cube_face)
           (parser_on two_solids) TriangleMesh_new cube_face_mesh
           (mkSTLParser cube_face (tokenize cube_face) END)
           (tokenize second_solid) Htok).
  - vm_compute. reflexivity.
  - vm_compute. reflexivity.
Defined.
(** ** Coordinates *)

Section Coordinates.

Variable stod_conv : string -> stod_result.

Lemma at_index_token (toks : list string) (i : Z) :
  0 <= i < size toks -> at_index toks i = Returns (token toks i).
Proof.
  intros H. apply at_index_Returns. split; [exact H|].
  unfold token. apply nth_error_nth'. unfold size in H. lia.
Qed.

(** What [parse_coordinates] does, by the conversions of the three tokens
    in the order in which they are made: the first one that fails decides,
    and only a failure to convert is turned into the parser's own error. *)
Lemma parse_coordinates_cases (toks : list string) (i : Z) :
  0 <= i -> i + 2 < 2 ^ 64 ->
  parse_coordinates stod_conv toks i =
  if i + 2 <? size toks then
    match stod_conv (token toks i) with
    | NoConversion => Throws (runtime_error Msg.coordinates)
    | OutOfRange => Throws (out_of_range "stod")
    | Converted cx =>
        match stod_conv (token toks (i + 1)) with
        | NoConversion => Throws (runtime_error Msg.coordinates)
        | OutOfRange => Throws (out_of_range "stod")
        | Converted cy =>
            match stod_conv (token toks (i + 2)) with
            | NoConversion => Throws (runtime_error Msg.coordinates)
            | OutOfRange => Throws (out_of_range "stod")
            | Converted cz => Returns (mkPoint cx cy cz)
            end
        end
    end
  else Throws (runtime_error Msg.coordinates).
Proof.
  intros Hi Hb. unfold parse_coordinates.
  rewrite !ulong_add_small by lia.
  destruct (Z.ltb_spec (i + 2) (size toks)) as [Hlt|]; [|reflexivity].
  rewrite !at_index_token by lia. unfold stod. cbn [bind].
  destruct (stod_conv (token toks i)); cbn; try reflexivity.
  destruct (stod_conv (token toks (i + 1))); cbn; try reflexivity.
  destruct (stod_conv (token toks (i + 2))); reflexivity.
Qed.

Lemma parse_coordinates_defined (toks : list string) (i : Z) :
  0 <= i -> i + 2 < 2 ^ 64 -> defined (parse_coordinates stod_conv toks i).
Proof.
  intros Hi Hb. rewrite parse_coordinates_cases by assumption.
  destruct (i + 2 <? size toks); [|exact I].
  destruct (stod_conv (token toks i)); try exact I.
  destruct (stod_conv (token toks (i + 1))); try exact I.
  destruct (stod_conv (token toks (i + 2))); exact I.
Qed.

End Coordinates.

(** C5: [parse_coordinates] is meant to fail with its own error, or to
    return the point; on the tokens [1e999 0 0] the exception
    [std::out_of_range] of [std::stod] leaves it, which is no
    [runtime_error] and belongs to no error kind, and the same exception
    leaves [to_triangle_mesh] when such a vertex is parsed. *)
Theorem parse_coordinates_out_of_range :
  parse_coordinates Stod.stod_model huge_vertex 0 =
    Throws (out_of_range "stod")
  /\ kind_of (out_of_range "stod") = None
  /\ fst (fst (to_triangle_mesh Stod.stod_model
                 (parser_on "solid s facet normal 0 0 1 outer loop vertex 1e999 0 0")
                 TriangleMesh_new)) =
     Throws (out_of_range "stod").
Proof. repeat split; vm_compute; reflexivity. Qed.

(** ** Inputs without [solid], and inputs that start with something else *)

Section NoSolid.

Variable stod_conv : string -> stod_result.

(** A token sequence in which [solid] does not occur (the empty one, or a
    bare list of facets) is read to its end in state [OUTSIDE]; the call
    then fails at the test that follows the loop. *)
Lemma no_solid_never_ended (this : STLParser) (mesh : TriangleMesh) :
  Forall (fun tok => tok <> "solid") (tokenize (content this)) ->
  addressable (tokenize (content this)) ->
  observable (to_triangle_mesh stod_conv this mesh) =
  (Throws (runtime_error Msg.never_ended), OUTSIDE, mesh).
Proof.
  intros Hno Ha.
  pose proof (run_tokens_skip stod_conv (tokenize (content this)) []) as H.
  rewrite app_nil_r in H. specialize (H Hno Ha).
  rewrite (to_triangle_mesh_by_run stod_conv this mesh _ _ _ H).
  reflexivity.
Qed.

End NoSolid.

(** C2: a file whose first token is not [solid] is meant to be rejected;
    the file that puts [exported by cad] before the solid [cube_face] is
    parsed to the mesh of [cube_face], the call returning in state [END]. *)
Theorem first_token_not_solid_accepted :
  hd_error (tokenize (leading_text ++ cube_face)) = Some "exported"
  /\ observable (to_triangle_mesh Stod.stod_model
                   (parser_on (leading_text ++ cube_face)) TriangleMesh_new) =
     (Returns tt, END, cube_face_mesh).
Proof. split; vm_compute; reflexivity. Qed.
(** ** The call always ends, by a return or by an exception *)

Section Totality.

Variable stod_conv : string -> stod_result.

Lemma check_triangle_defined (t : Triangle) : defined (check_triangle t).
Proof.
  destruct (check_triangle_outcomes t) as [H|[H|H]]; rewrite H; exact I.
Qed.

(** One iteration on a position inside the tokens is defined, and it keeps
    the number of triangles within the number of tokens read. *)
Lemma switch_body_defined (toks : list string) (st : State) (l : Locals) :
  addressable toks -> 0 <= cnt l < size toks ->
  0 <= triangle_count (mesh_tmp l) <= cnt l ->
  match switch_body stod_conv toks st l with
  | Returns (_, l') =>
      0 <= triangle_count (mesh_tmp l') <= cnt l + 1
  | Throws _ => True
  | Undefined | Diverges => False
  end.
Proof.
  unfold addressable. intros Ha Hc Hm.
  assert (A1 : ulong_add (cnt l) 1 = cnt l + 1)
    by (apply ulong_add_small; lia).
  pose proof (at_index_token toks (cnt l) Hc) as Hat.
  destruct st; cbn [switch_body]; rewrite ?Hat; cbn [bind].
  - destruct (String.eqb (token toks (cnt l)) "solid");
      [|cbn [mesh_tmp]; lia].
    rewrite A1.
    destruct (Z.ltb_spec (cnt l + 1) (size toks)); [|exact I].
    rewrite at_index_token by lia. cbn [bind].
    destruct (String.eqb (token toks (cnt l + 1)) "facet");
      cbn [mesh_tmp set_name triangle_count]; lia.
  - destruct (String.eqb (token toks (cnt l)) "facet"); [lia|].
    destruct (String.eqb (token toks (cnt l)) "endsolid"); [lia|exact I].
  - destruct (String.eqb (token toks (cnt l)) "normal"); [lia|].
    destruct (String.eqb (token toks (cnt l)) "endfacet"); [lia|exact I].
  - pose proof (parse_coordinates_defined stod_conv toks (cnt l)) as Hd.
    destruct (parse_coordinates stod_conv toks (cnt l)) as [p|e| |];
      cbn [bind]; try exact I; try (apply Hd; lia).
    rewrite set_facet_normal_cases. unfold call.
    destruct (passes_unit_test p); cbn [fst snd bind mesh_tmp]; [lia|].
    destruct (abs (norm p) <? EPS)%float; cbn [fst snd bind mesh_tmp];
      [exact I|lia].
  - destruct (String.eqb (token toks (cnt l)) "outer"); [lia|exact I].
  - destruct (String.eqb (token toks (cnt l)) "loop"); [lia|exact I].
  - destruct (String.eqb (token toks (cnt l)) "vertex").
    + rewrite A1.
      pose proof (parse_coordinates_defined stod_conv toks (cnt l + 1)) as Hd.
      destruct (parse_coordinates stod_conv toks (cnt l + 1)) as [p|e| |];
        cbn [bind]; try exact I; try (apply Hd; lia).
      unfold call, add_vertex.
      destruct (size (vertices (tri l)) <? 3); cbn [fst snd bind mesh_tmp];
        [lia|exact I].
    + destruct (String.eqb (token toks (cnt l)) "endloop"); [|exact I].
      pose proof (check_triangle_defined (tri l)) as Hd.
      unfold call. rewrite add_triangle_by_check.
      destruct (check_triangle (tri l)) as [[|]|e| |]; cbn [bind];
        try exact I; try exact Hd.
      replace (triangle_count (mesh_tmp l) <? LONG_MAX) with true
        by (symmetry; apply Z.ltb_lt; unfold LONG_MAX; lia).
      cbn [fst snd bind mesh_tmp triangle_count]. lia.
  - cbn [mesh_tmp]. lia.
Qed.

Lemma while_loop_defined (toks : list string) :
  addressable toks ->
  forall (fuel : nat) (st : State) (l : Locals),
  0 <= cnt l -> 0 <= triangle_count (mesh_tmp l) <= cnt l ->
  size toks - cnt l < Z.of_nat fuel ->
  defined (fst (fst (while_loop stod_conv fuel toks st l))).
Proof.
  intros Ha. induction fuel as [|fuel IH]; intros st l Hc Hm Hfuel.
  - rewrite while_loop_exit by lia. exact I.
  - destruct (Z.lt_ge_cases (cnt l) (size toks)) as [Hlt|Hge];
      [|rewrite while_loop_exit by exact Hge; exact I].
    rewrite while_loop_step by exact Hlt.
    pose proof (switch_body_defined toks st l Ha (conj Hc Hlt) Hm) as Hd.
    destruct (switch_body stod_conv toks st l) as [[st' l']|e| |] eqn:E;
      try exact I; try contradiction.
    pose proof (switch_body_advance stod_conv toks st st' l l' Ha
                  (conj Hc Hlt) E) as Hadv.
    unfold addressable in Ha.
    apply IH; cbn [incr_cnt cnt mesh_tmp];
      rewrite ?ulong_add_small by lia; lia.
Qed.

(** On any file of a size a vector can hold, [to_triangle_mesh] returns or
    throws: the fuel given to its loop is never used up, and nothing
    undefined is executed. *)
Lemma to_triangle_mesh_defined (this : STLParser) (mesh : TriangleMesh) :
  addressable (tokenize (content this)) ->
  defined (fst (fst (to_triangle_mesh stod_conv this mesh))).
Proof.
  intros Ha.
  pose proof (while_loop_defined _ Ha (S (List.length (tokenize (content this))))
                OUTSIDE initial_locals) as Hd.
  fold (run_tokens stod_conv (tokenize (content this))) in Hd.
  destruct (run_tokens stod_conv (tokenize (content this)))
    as [[r st] l] eqn:E.
  rewrite (to_triangle_mesh_by_run stod_conv this mesh _ _ _ E).
  cbv zeta. cbn [fst] in Hd.
  assert (Hr : defined r).
  { apply Hd; cbn [initial_locals cnt mesh_tmp TriangleMesh_new triangle_count];
      unfold size; lia. }
  destruct r; try contradiction; [|exact I].
  destruct (State_eqb st END); exact I.
Qed.

(** The working mesh is built through the interface of [TriangleMesh]
    only: at every moment it is a reachable mesh. *)
Lemma switch_body_reachable (toks : list string) (st st' : State)
    (l l' : Locals) :
  reachable_mesh (mesh_tmp l) ->
  switch_body stod_conv toks st l = Returns (st', l') ->
  reachable_mesh (mesh_tmp l').
Proof.
  intros Hm H.
  destruct st; cbn [switch_body] in H; unfold call in H; unfold bind in H;
    repeat (break_match; try discriminate);
    injection H as <- <-; cbn [mesh_tmp]; try exact Hm.
  - apply reach_set_name. exact Hm.
  - apply reach_set_name. exact Hm.
  - apply reach_add_triangle with (m := mesh_tmp l) (t := tri l);
      [exact Hm|].
    destruct (add_triangle (mesh_tmp l) (tri l)) as [r m'].
    cbn [fst snd] in *. subst r.
    match goal with u : unit |- _ => destruct u end. reflexivity.
Qed.

Lemma while_loop_reachable (toks : list string) (fuel : nat) :
  forall (st : State) (l : Locals),
  reachable_mesh (mesh_tmp l) ->
  reachable_mesh (mesh_tmp (snd (while_loop stod_conv fuel toks st l))).
Proof.
  induction fuel as [|fuel IH]; intros st l Hm; cbn [while_loop].
  - destruct (cnt l <? size toks); exact Hm.
  - destruct (cnt l <? size toks); [|exact Hm].
    destruct (switch_body stod_conv toks st l) as [[st' l']|e| |] eqn:E;
      try exact Hm.
    apply IH. cbn [incr_cnt mesh_tmp].
    exact (switch_body_reachable toks st st' l l' Hm E).
Qed.

(** The mesh handed to the caller on success holds only triangles that
    passed [check_triangle], and its count is their number. *)
Lemma to_triangle_mesh_result_valid (this p : STLParser)
    (mesh mesh' : TriangleMesh) :
  to_triangle_mesh stod_conv this mesh = (Returns tt, p, mesh') ->
  triangle_count mesh' = size (triangles mesh')
  /\ Forall (fun t => check_triangle t = Returns true) (triangles mesh').
Proof.
  intros H. apply reachable_mesh_invariant.
  pose proof (while_loop_reachable (tokenize (content this))
                (S (List.length (tokenize (content this))))
                OUTSIDE initial_locals reach_new) as Hr.
  fold (run_tokens stod_conv (tokenize (content this))) in Hr.
  destruct (run_tokens stod_conv (tokenize (content this)))
    as [[r st] l] eqn:E.
  rewrite (to_triangle_mesh_by_run stod_conv this mesh _ _ _ E) in H.
  cbv zeta in H. cbn [snd] in Hr.
  destruct r; try discriminate.
  destruct (State_eqb st END); [|discriminate].
  injection H as _ <-. exact Hr.
Qed.

(** The state [END] is entered on the token [endsolid] only: a call that
    returns has read one. *)
Lemma switch_body_END (toks : list string) (st st' : State) (l l' : Locals) :
  switch_body stod_conv toks st l = Returns (st', l') ->
  st' = END -> st = END \/ In "endsolid" toks.
Proof.
  intros H ->.
  destruct st; [..|left; reflexivity]; right;
    cbn [switch_body] in H; unfold call in H; unfold bind in H;
    repeat (break_match; try discriminate); try discriminate.
  match goal with
  | Ha : at_index toks (cnt l) = Returns ?tok,
    He : String.eqb ?tok "endsolid" = true |- _ =>
      apply String.eqb_eq in He; subst tok;
      apply at_index_Returns in Ha; destruct Ha as [_ Ha];
      exact (nth_error_In _ _ Ha)
  end.
Qed.

Lemma while_loop_END_reached (toks : list string) (fuel : nat) :
  forall (st st' : State) (l l' : Locals) (r : result unit),
  while_loop stod_conv fuel toks st l = (r, st', l') ->
  st' = END -> st = END \/ In "endsolid" toks.
Proof.
  induction fuel as [|fuel IH]; intros st st' l l' r H Hend;
    cbn [while_loop] in H.
  - destruct (cnt l <? size toks); injection H as _ <- _; auto.
  - destruct (cnt l <? size toks); [|injection H as _ <- _; auto].
    destruct (switch_body stod_conv toks st l) as [[st1 l1]|e| |] eqn:E;
      try (injection H as _ <- _; auto).
    destruct (IH _ _ _ _ _ H Hend) as [H1|H1]; [|auto].
    exact (switch_body_END toks st st1 l l1 E H1).
Qed.

Lemma returns_only_after_endsolid (this p : STLParser)
    (mesh mesh' : TriangleMesh) :
  to_triangle_mesh stod_conv this mesh = (Returns tt, p, mesh') ->
  In "endsolid" (tokenize (content this)).
Proof.
  intros H.
  destruct (run_tokens stod_conv (tokenize (content this)))
    as [[r st] l] eqn:E.
  rewrite (to_triangle_mesh_by_run stod_conv this mesh _ _ _ E) in H.
  cbv zeta in H. destruct r; try discriminate.
  destruct (State_eqb st END) eqn:Est; [|discriminate].
  apply State_eqb_eq in Est.
  destruct (while_loop_END_reached _ _ _ _ _ _ _ E Est) as [H1|H1];
    [discriminate|exact H1].
Qed.

End Totality.

(** The end-to-end example of the specification: one triangle, the name
    [cube_face], the count 1. *)
Lemma cube_face_parses :
  observable (to_triangle_mesh Stod.stod_model (parser_on cube_face)
                TriangleMesh_new) =
  (Returns tt, END, cube_face_mesh).
Proof. vm_compute. reflexivity. Qed.

(** [std::stod] converts the number at the head of a token and ignores what
    follows it: [1abc] is read as 1. *)
Lemma parse_coordinates_number_prefix :
  parse_coordinates Stod.stod_model ["1abc"; "0"; "0"] 0 =
  Returns (mkPoint 1 0 0).
Proof. vm_compute. reflexivity. Qed.

(** Just below the least normal double the library decides after rounding
    whether a value is too small: a decimal number that rounds to the least
    normal double is reported all the same when, rounded to 53 bits, it is
    still below it; and a hexadecimal number that exceeds the greatest
    subnormal double by one bit in the 54th place is converted to it
    without a report. *)
Lemma stod_model_below_least_normal :
  Stod.stod_model "2.2250738585072012e-308" = OutOfRange
  /\ Stod.stod_model "2.2250738585072014e-308" =
     Converted (SF2Prim (S754_finite false 4503599627370496 (-1074)))
  /\ Stod.stod_model "0x0.fffffffffffff4p-1022" =
     Converted (SF2Prim (S754_finite false 4503599627370495 (-1074)))
  /\ Stod.stod_model "0x0.fffffffffffff8p-1022" = OutOfRange
  /\ Stod.stod_model "0x0.fffffffffffffcp-1022" =
     Converted (SF2Prim (S754_finite false 4503599627370496 (-1074))).
Proof. vm_compute. repeat split; reflexivity. Qed.
(** ** The test of [set_facet_normal] on binary64 values

    The facts about [1.0 - fabs(n) < EPS] that hold for every double [n]
    are proved on the specification of the binary64 operations
    ([SpecFloat]), to which the primitive operations are tied by the
    library's [FloatAxioms]. *)

Lemma digits2_pos_bounds (p : positive) :
  2 ^ (Z.pos (digits2_pos p) - 1) <= Z.pos p < 2 ^ Z.pos (digits2_pos p).
Proof.
  induction p as [p IH|p IH|]; cbn [digits2_pos].
  - rewrite Pos2Z.inj_succ, Pos2Z.inj_xI.
    replace (Z.succ (Z.pos (digits2_pos p)) - 1)
      with (Z.succ (Z.pos (digits2_pos p) - 1)) by lia.
    rewrite !Z.pow_succ_r by lia. lia.
  - rewrite Pos2Z.inj_succ. change (Z.pos p~0) with (2 * Z.pos p).
    replace (Z.succ (Z.pos (digits2_pos p)) - 1)
      with (Z.succ (Z.pos (digits2_pos p) - 1)) by lia.
    rewrite !Z.pow_succ_r by lia. lia.
  - cbn. lia.
Qed.

Lemma digits2_pos_shift (d n : positive) :
  digits2_pos (Pos.iter xO d n) = (digits2_pos d + n)%positive.
Proof.
  induction n as [|n IH] using Pos.peano_ind.
  - cbn [Pos.iter digits2_pos]. rewrite Pos.add_1_r. reflexivity.
  - rewrite Pos.iter_succ. cbn [digits2_pos]. rewrite IH.
    rewrite Pos.add_succ_r. reflexivity.
Qed.

Lemma Zpos_shift (d n : positive) :
  Z.pos (Pos.iter xO d n) = Z.pos d * 2 ^ Z.pos n.
Proof.
  induction n as [|n IH] using Pos.peano_ind.
  - cbn [Pos.iter]. change (Z.pos d~0) with (2 * Z.pos d).
    change (2 ^ 1) with 2. lia.
  - rewrite Pos.iter_succ.
    change (Z.pos (Pos.iter xO d n)~0) with (2 * Z.pos (Pos.iter xO d n)).
    rewrite IH, Pos2Z.inj_succ, Z.pow_succ_r by lia. lia.
Qed.

(** A mantissa in canonical position needs no rounding. *)
Lemma binary_round_aux_canonical (s : bool) (m : positive) (e : Z) :
  fexp prec emax (Z.pos (digits2_pos m) + e) = e ->
  binary_round_aux prec emax s (Z.pos m) e loc_Exact =
  if e <=? emax - prec then S754_finite s m e else S754_infinity s.
Proof.
  intros H. unfold binary_round_aux, shr_fexp.
  cbn [Zdigits2 shr_record_of_loc]. rewrite H, Z.sub_diag.
  cbn [shr shr_m loc_of_shr_record round_nearest_even Zdigits2
       shr_record_of_loc].
  rewrite H, Z.sub_diag. reflexivity.
Qed.

(** An integer of fewer than 53 bits, scaled into the normal range, is
    represented exactly: its bits are moved to the top of the mantissa. *)
Lemma binary_round_short (s : bool) (d : positive) (e : Z) (p : positive) :
  Z.pos p = 53 - Z.pos (digits2_pos d) ->
  -1074 <= e - Z.pos p <= 971 ->
  binary_round prec emax s d e =
  S754_finite s (Pos.iter xO d p) (e - Z.pos p).
Proof.
  intros Hp He. unfold binary_round.
  assert (Hf : fexp prec emax (Z.pos (digits2_pos d) + e) = e - Z.pos p)
    by (unfold fexp, SpecFloat.emin, prec, emax; lia).
  rewrite Hf. unfold shl_align.
  replace (e - Z.pos p - e) with (Z.neg p) by lia.
  rewrite binary_round_aux_canonical.
  - replace (e - Z.pos p <=? emax - prec) with true
      by (symmetry; apply Z.leb_le; unfold emax, prec; lia).
    reflexivity.
  - rewrite digits2_pos_shift, Pos2Z.inj_add.
    unfold fexp, SpecFloat.emin, prec, emax. lia.
Qed.

Lemma iter_pos_invariant {A : Type} (f : A -> A) (P : A -> Prop) :
  (forall a, P a -> P (f a)) ->
  forall (n : positive) (a : A), P a -> P (iter_pos f n a).
Proof.
  intros Hf. induction n as [n IH|n IH|]; intros a Ha; cbn [iter_pos]; auto.
Qed.

Lemma shr_1_nonneg (mrs : shr_record) :
  0 <= shr_m mrs -> 0 <= shr_m (shr_1 mrs).
Proof.
  destruct mrs as [m r s]. cbn [shr_m].
  destruct m as [|[q|q|]|[q|q|]]; cbn [shr_1 shr_m]; lia.
Qed.

Lemma shr_fexp_nonneg (m e : Z) (l : location) :
  0 <= m -> 0 <= shr_m (fst (shr_fexp prec emax m e l)).
Proof.
  intros H. unfold shr_fexp, shr.
  assert (H0 : 0 <= shr_m (shr_record_of_loc m l))
    by (destruct l as [|[]]; exact H).
  destruct (fexp prec emax (Zdigits2 m + e) - e); cbn [fst]; try exact H0.
  apply (iter_pos_invariant shr_1 (fun r => 0 <= shr_m r)); [|exact H0].
  exact shr_1_nonneg.
Qed.

Lemma round_nearest_even_nonneg (m : Z) (l : location) :
  0 <= m -> 0 <= round_nearest_even m l.
Proof.
  intros H. destruct l as [|[]]; cbn [round_nearest_even]; try lia.
  destruct (Z.even m); lia.
Qed.

(** Rounding a positive mantissa never produces a NaN, and keeps the sign. *)
Lemma binary_round_aux_sign (s : bool) (m : positive) (e : Z) (l : location) :
  binary_round_aux prec emax s (Z.pos m) e l = S754_zero s
  \/ binary_round_aux prec emax s (Z.pos m) e l = S754_infinity s
  \/ exists m' e', binary_round_aux prec emax s (Z.pos m) e l =
                   S754_finite s m' e'.
Proof.
  unfold binary_round_aux.
  pose proof (shr_fexp_nonneg (Z.pos m) e l (Pos2Z.is_nonneg m)) as H1.
  destruct (shr_fexp prec emax (Z.pos m) e l) as [mrs' e'].
  cbn [fst] in H1.
  pose proof (round_nearest_even_nonneg (shr_m mrs')
                (loc_of_shr_record mrs') H1) as H2.
  pose proof (shr_fexp_nonneg _ e' loc_Exact H2) as H3.
  destruct (shr_fexp prec emax _ e' loc_Exact) as [mrs'' e''].
  cbn [fst] in H3.
  destruct (shr_m mrs'') as [|q|q]; [auto| |lia].
  destruct (e'' <=? emax - prec); [|auto].
  right. right. exists q, e''. reflexivity.
Qed.

Lemma binary_round_sign (s : bool) (m : positive) (e : Z) :
  binary_round prec emax s m e = S754_zero s
  \/ binary_round prec emax s m e = S754_infinity s
  \/ exists m' e', binary_round prec emax s m e = S754_finite s m' e'.
Proof.
  unfold binary_round.
  destruct (shl_align m e _) as [mz ez]. apply binary_round_aux_sign.
Qed.

Lemma compare_cont_Eq_lt (a b : positive) :
  Z.pos a < Z.pos b -> Pos.compare_cont Eq a b = Lt.
Proof.
  intros H. exact H.
Qed.

Lemma compare_cont_Eq_Lt_inv (a b : positive) :
  Pos.compare_cont Eq a b = Lt -> Z.pos a < Z.pos b.
Proof.
  intros H. exact H.
Qed.

Lemma SF_constants :
  Prim2SF 1 = SF_one /\ Prim2SF EPS = SF_EPS /\ Prim2SF 0.999 = SF_0999.
Proof. repeat split; vm_compute; reflexivity. Qed.

(** Doubles in [0.5, 1) above the double nearest 0.999: the difference
    [1 - n] is exact and below [EPS]. *)
Lemma SFsub_one_below_one (m : positive) :
  Z.pos (digits2_pos m) = 53 -> 8998192055486251 < Z.pos m ->
  SFltb (SFsub prec emax SF_one (S754_finite false m (-53))) SF_EPS = true.
Proof.
  intros Hd Hm. pose proof (digits2_pos_bounds m) as Hb. rewrite Hd in Hb.
  change (2 ^ 53) with 9007199254740992 in Hb.
  unfold SFsub, SF_one. change (Z.min (-52) (-53)) with (-53). cbv zeta.
  replace (shl_align 4503599627370496 (-52) (-53))
    with (9007199254740992%positive, -53) by reflexivity.
  replace (shl_align m (-53) (-53)) with (m, -53) by reflexivity.
  cbn [fst cond_Zopp].
  destruct (Z.pos 9007199254740992 - Z.pos m) as [|d|d] eqn:Hdiff; try lia.
  cbn [binary_normalize].
  pose proof (digits2_pos_bounds d) as Hbd.
  assert (Hk : Z.pos (digits2_pos d) <= 44).
  { destruct (Z.le_gt_cases (Z.pos (digits2_pos d)) 44) as [H|H]; [exact H|].
    pose proof (Z.pow_le_mono_r 2 44 (Z.pos (digits2_pos d) - 1)) as Hp.
    change (2 ^ 44) with 17592186044416 in Hp. lia. }
  destruct (53 - Z.pos (digits2_pos d)) as [|p|p] eqn:Hp; try lia.
  rewrite (binary_round_short false d (-53) p) by lia.
  unfold SFltb, SFcompare, SF_EPS.
  destruct (Z.compare_spec (-53 - Z.pos p) (-62)) as [Heq|Hlt|Hgt].
  - rewrite compare_cont_Eq_lt; [reflexivity|].
    rewrite Zpos_shift. replace (Z.pos p) with 9 by lia.
    change (2 ^ 9) with 512. lia.
  - reflexivity.
  - lia.
Qed.

(** Doubles from 1 upwards: the difference [1 - n] is zero or negative. *)
Lemma SFsub_one_from_one (m : positive) (e : Z) :
  Z.pos (digits2_pos m) = 53 -> -52 <= e ->
  SFltb (SFsub prec emax SF_one (S754_finite false m e)) SF_EPS = true.
Proof.
  intros Hd He. pose proof (digits2_pos_bounds m) as Hb. rewrite Hd in Hb.
  change (2 ^ (53 - 1)) with 4503599627370496 in Hb.
  unfold SFsub, SF_one. rewrite Z.min_l by lia. cbv zeta.
  replace (shl_align 4503599627370496 (-52) (-52))
    with (4503599627370496%positive, -52) by reflexivity.
  assert (HM : 4503599627370496 <= Z.pos (fst (shl_align m e (-52)))).
  { unfold shl_align. destruct (-52 - e) as [|q|q]; cbn [fst]; try lia.
    rewrite Zpos_shift.
    pose proof (Z.pow_pos_nonneg 2 (Z.pos q)). nia. }
  cbn [fst cond_Zopp].
  destruct (Z.pos 4503599627370496 - Z.pos (fst (shl_align m e (-52))))
    as [|d|d] eqn:Hdiff; try lia.
  - reflexivity.
  - cbn [binary_normalize].
    destruct (binary_round_sign true d (-52)) as [H|[H|(m' & e' & H)]];
      rewrite H; reflexivity.
Qed.

Lemma valid_binary_digits (s : bool) (m : positive) (e : Z) :
  valid_binary (S754_finite s m e) = true ->
  Z.pos (digits2_pos m) <= 53
  /\ (-1074 < e -> Z.pos (digits2_pos m) = 53).
Proof.
  cbn [SpecFloat.valid_binary]. unfold bounded, canonical_mantissa.
  intros H. apply andb_prop in H. destruct H as [H _].
  apply Z.eqb_eq in H. revert H.
  unfold fexp, SpecFloat.emin, prec, emax. lia.
Qed.

(** Every double above the double nearest 0.999 passes the test of
    [set_facet_normal], however large it is. *)
Lemma unit_test_above_0999 (n : float) :
  (0.999 <? n)%float = true -> (1.0 - abs n <? EPS)%float = true.
Proof.
  rewrite !ltb_spec, sub_spec, abs_spec.
  destruct SF_constants as (-> & -> & ->).
  pose proof (Prim2SF_valid n) as Hv.
  destruct (Prim2SF n) as [s|s| |s m e].
  - destruct s; discriminate.
  - destruct s; [discriminate|]. intros _. reflexivity.
  - discriminate.
  - destruct s; [discriminate|].
    destruct (valid_binary_digits _ _ _ Hv) as [_ Hd].
    unfold SFltb at 1. unfold SFcompare, SF_0999.
    destruct (Z.compare_spec (-53) e) as [<-|Hlt|Hgt].
    + destruct (Pos.compare_cont Eq 8998192055486251 m) eqn:Hm;
        try discriminate.
      apply compare_cont_Eq_Lt_inv in Hm.
      intros _. cbn [SFabs]. apply SFsub_one_below_one; [apply Hd; lia|].
      exact Hm.
    + intros _. cbn [SFabs]. apply SFsub_one_from_one; [apply Hd|]; lia.
    + discriminate.
Qed.

(** A double whose exact value is at least 0.999 is above the double
    nearest 0.999. *)
Lemma at_least_0999_above (n : float) :
  at_least n 999 1000 = true -> (0.999 <? n)%float = true.
Proof.
  unfold at_least. rewrite ltb_spec.
  destruct SF_constants as (_ & _ & ->).
  pose proof (Prim2SF_valid n) as Hv.
  destruct (Prim2SF n) as [s|s| |s m e]; try discriminate.
  - destruct s; [discriminate|reflexivity].
  - destruct s; [discriminate|].
    destruct (valid_binary_digits _ _ _ Hv) as [Hd _].
    pose proof (digits2_pos_bounds m) as [_ Hb].
    pose proof (Z.pow_le_mono_r 2 (Z.pos (digits2_pos m)) 53) as Hpow.
    change (2 ^ 53) with 9007199254740992 in Hpow.
    unfold SFltb, SFcompare, SF_0999.
    destruct (Z.compare_spec (-53) e) as [<-|Hlt|Hgt].
    + change (0 <=? -53) with false. cbv iota.
      change (2 ^ (- -53)) with 9007199254740992.
      intros H. apply Z.leb_le in H.
      rewrite compare_cont_Eq_lt; [reflexivity|]. lia.
    + reflexivity.
    + replace (0 <=? e) with false by (symmetry; apply Z.leb_gt; lia).
      intros H. apply Z.leb_le in H.
      pose proof (Z.pow_le_mono_r 2 54 (- e)) as Hpe.
      change (2 ^ 54) with 18014398509481984 in Hpe. lia.
Qed.

(** The double nearest 0.999 lies below 0.999 and stays outside: a normal
    of that magnitude is normalized before it is stored. *)
Lemma set_facet_normal_below_0999 :
  at_least (norm (mkPoint 0.999 0 0)) 999 1000 = false
  /\ passes_unit_test (mkPoint 0.999 0 0) = false
  /\ set_facet_normal Triangle_new (mkPoint 0.999 0 0) =
     (Returns tt, mkTriangle [] (mkPoint 1 0 0)).
Proof. repeat split; vm_compute; reflexivity. Qed.

(** C9: [set_facet_normal] stores its argument as it is, without
    normalizing it, whenever [1.0 - |norm p| < EPS]; every vector whose
    norm is at least 0.999 satisfies this, however large the norm is. *)
Theorem set_facet_normal_stores_as_is (this : Triangle) (p : Point) :
  passes_unit_test p = true \/ at_least (norm p) 999 1000 = true ->
  passes_unit_test p = true
  /\ set_facet_normal this p = (Returns tt, mkTriangle (vertices this) p).
Proof.
  intros H.
  assert (Hp : passes_unit_test p = true).
  { destruct H as [H|H]; [exact H|]. unfold passes_unit_test.
    apply unit_test_above_0999. apply at_least_0999_above. exact H. }
  split; [exact Hp|].
  rewrite set_facet_normal_cases, Hp. reflexivity.
Qed.

(** A normal of magnitude 2 is stored as it is, and is not of unit length. *)
Lemma set_facet_normal_stores_as_is_witness :
  at_least (norm (mkPoint 2 0 0)) 999 1000 = true
  /\ norm (mkPoint 2 0 0) = 2%float
  /\ unit_length (mkPoint 2 0 0) = false
  /\ set_facet_normal Triangle_new (mkPoint 2 0 0) =
     (Returns tt, mkTriangle [] (mkPoint 2 0 0)).
Proof.
  assert (H : at_least (norm (mkPoint 2 0 0)) 999 1000 = true)
    by (vm_compute; reflexivity).
  split; [exact H|]. split; [vm_compute; reflexivity|].
  split; [vm_compute; reflexivity|].
  exact (proj2 (set_facet_normal_stores_as_is Triangle_new (mkPoint 2 0 0)
                  (or_intror H))).
Defined.
(** ** Reading the file and cutting it into tokens *)

Lemma string_app_nil_r (s : string) : (s ++ "")%string = s.
Proof. induction s as [|c s IH]; cbn; [reflexivity|rewrite IH; reflexivity]. Qed.

Lemma string_app_assoc (a b c : string) :
  ((a ++ b) ++ c)%string = (a ++ b ++ c)%string.
Proof. induction a as [|d a IH]; cbn; [reflexivity|rewrite IH; reflexivity]. Qed.

(** A white-space character ends the word being read and starts afresh. *)
Lemma extract_words_app_space (a b : string) (c : ascii) (w : string) :
  isspace c = true ->
  extract_words (a ++ String c b) w =
  extract_words a w ++ extract_words b "".
Proof.
  intros Hc. revert w. induction a as [|d a IH]; intros w; cbn.
  - rewrite Hc. destruct (String.eqb w ""); reflexivity.
  - destruct (isspace d); [|apply IH].
    destruct (String.eqb w ""); cbn; rewrite IH; reflexivity.
Qed.

(** Characters that are not white space extend the word being read. *)
Lemma extract_words_app_word (t s w : string) :
  no_space t = true ->
  extract_words (t ++ s) w = extract_words s (w ++ t).
Proof.
  revert w. induction t as [|c t IH]; intros w Ht; cbn.
  - rewrite string_app_nil_r. reflexivity.
  - cbn in Ht. apply andb_prop in Ht. destruct Ht as [Hc Ht].
    apply negb_true_iff in Hc. rewrite Hc, IH by exact Ht.
    rewrite string_app_assoc. reflexivity.
Qed.

Lemma no_space_app (a b : string) :
  no_space (a ++ b) = no_space a && no_space b.
Proof.
  induction a as [|c a IH]; cbn; [reflexivity|].
  rewrite IH, andb_assoc. reflexivity.
Qed.

Lemma extract_words_tokens (s w : string) :
  no_space w = true ->
  Forall (fun t => is_token t = true) (extract_words s w).
Proof.
  revert w. induction s as [|c s IH]; intros w Hw; cbn.
  - destruct (String.eqb w "") eqn:E; constructor; [|constructor].
    unfold is_token. rewrite E, Hw. reflexivity.
  - destruct (isspace c) eqn:Hc.
    + destruct (String.eqb w "") eqn:E; [apply IH; reflexivity|].
      constructor; [|apply IH; reflexivity].
      unfold is_token. rewrite E, Hw. reflexivity.
    + apply IH. rewrite no_space_app, Hw. cbn. rewrite Hc. reflexivity.
Qed.

Lemma read_pieces_words (file line w : string) :
  extract_words (read_pieces file line) w = extract_words (line ++ file) w.
Proof.
  revert line w. induction file as [|c rest IH]; intros line w;
    cbn [read_pieces].
  - rewrite string_app_nil_r.
    destruct (String.eqb line "") eqn:E.
    + apply String.eqb_eq in E. subst line. reflexivity.
    + unfold newline. rewrite extract_words_app_space by reflexivity.
      cbn. rewrite app_nil_r. reflexivity.
  - destruct (Ascii.eqb c " ") eqn:E.
    + apply Ascii.eqb_eq in E. subst c. unfold newline. cbn [append].
      rewrite !extract_words_app_space by reflexivity.
      rewrite IH. reflexivity.
    + rewrite IH, string_app_assoc. reflexivity.
Qed.

Lemma tokenize_after_read_content (file : string) :
  tokenize (read_content file) = tokenize file.
Proof. unfold tokenize, read_content. apply read_pieces_words. Qed.

(** X1: what [read_content] does to the file (every space becomes a
    newline, a newline is added after the last piece) leaves the token
    sequence as it is. *)
Theorem tokenize_read_content (file : string) :
  tokenize (read_content file) = tokenize file.
Proof. exact (tokenize_after_read_content file). Qed.

(** X2: the tokenizer never yields an empty token, nor one that holds a
    white-space character. *)
Theorem tokenize_tokens (s : string) :
  Forall (fun t => is_token t = true) (tokenize s).
Proof. apply extract_words_tokens. reflexivity. Qed.

(** X3: tokens written out with spaces between them are read back as they
    were: every sequence of non-empty tokens without white space is the
    token sequence of a file. *)
Theorem tokenize_join_tokens (toks : list string) :
  Forall (fun t => is_token t = true) toks ->
  tokenize (join_tokens toks) = toks.
Proof.
  unfold tokenize. induction 1 as [|t toks Ht Htoks IH]; [reflexivity|].
  unfold is_token in Ht. apply andb_prop in Ht. destruct Ht as [Hne Hns].
  cbn [join_tokens]. rewrite extract_words_app_word by exact Hns.
  cbn [append extract_words].
  replace (isspace " ") with true by reflexivity.
  apply negb_true_iff in Hne. rewrite Hne, IH. reflexivity.
Qed.

(** The keywords of a one-facet file, written out and read back. *)
Lemma tokenize_join_tokens_witness :
  Forall (fun t => is_token t = true) (tokenize cube_face)
  /\ tokenize (join_tokens (tokenize cube_face)) = tokenize cube_face.
Proof.
  assert (H : Forall (fun t => is_token t = true) (tokenize cube_face))
    by (vm_compute; repeat constructor).
  split; [exact H|]. exact (tokenize_join_tokens (tokenize cube_face) H).
Defined.
(** ** The constructor of the parser *)

(** X4: a parser constructed on a file that can be opened parses as the
    text of the file does: neither the rewriting of [read_content] nor the
    value the uninitialised member [state] happens to have plays a part. *)
Theorem parse_after_construction (files : string -> option string)
    (st0 : State) (filename text : string)
    (stod_conv : string -> stod_result) (mesh : TriangleMesh) :
  files filename = Some text ->
  exists p, STLParser_new files st0 filename = Returns p
            /\ observable (to_triangle_mesh stod_conv p mesh) =
               observable (to_triangle_mesh stod_conv (parser_on text) mesh).
Proof.
  intros Hf. unfold STLParser_new. rewrite Hf. eexists. split; [reflexivity|].
  unfold to_triangle_mesh. cbn [content parser_on].
  rewrite tokenize_after_read_content.
  destruct (run_tokens stod_conv (tokenize text)) as [[r st] l].
  destruct r; try reflexivity.
  destruct (negb (State_eqb st END)); reflexivity.
Qed.

(** The one-facet file, opened under any name. *)
Lemma parse_after_construction_witness :
  exists p, STLParser_new (fun _ => Some cube_face) LOOP "cube.stl" = Returns p
            /\ observable (to_triangle_mesh Stod.stod_model p TriangleMesh_new) =
               (Returns tt, END, cube_face_mesh).
Proof.
  destruct (parse_after_construction (fun _ => Some cube_face) LOOP
              "cube.stl" cube_face Stod.stod_model TriangleMesh_new eq_refl)
    as (p & Hp & Hobs).
  exists p. split; [exact Hp|]. rewrite Hobs. vm_compute. reflexivity.
Defined.

(** ** Triangles built through the interface *)

Lemma add_vertex_returned (t t' : Triangle) (v : Point) :
  add_vertex t v = (Returns tt, t') ->
  size (vertices t) < 3
  /\ t' = mkTriangle (vertices t ++ [v]) (facet_normal t).
Proof.
  unfold add_vertex. destruct (Z.ltb_spec (size (vertices t)) 3) as [H|H];
    [|discriminate].
  intros [= <-]. auto.
Qed.

Lemma set_facet_normal_vertices (t : Triangle) (n : Point) :
  vertices (snd (set_facet_normal t n)) = vertices t.
Proof.
  rewrite set_facet_normal_cases.
  destruct (passes_unit_test n); [reflexivity|].
  destruct (abs (norm n) <? EPS)%float; reflexivity.
Qed.

Lemma reachable_triangle_size (t : Triangle) :
  reachable_triangle t -> size (vertices t) <= 3.
Proof.
  induction 1 as [|t t' v Ht IH Hadd|t Ht IH|t t' n Ht IH Hset].
  - cbn. lia.
  - apply add_vertex_returned in Hadd. destruct Hadd as [Hlt ->].
    cbn [vertices]. rewrite size_app, size_cons, size_nil. lia.
  - cbn. lia.
  - pose proof (set_facet_normal_vertices t n) as Hv.
    rewrite Hset in Hv. cbn [snd] in Hv. rewrite Hv. exact IH.
Qed.

(** X5: a triangle built through its interface never holds more than three
    vertices: while it holds fewer, [add_vertex] appends the vertex at the
    end; once it holds three, [add_vertex] throws and leaves the triangle
    as it is. *)
Theorem add_vertex_capacity (t : Triangle) (v : Point) :
  reachable_triangle t ->
  size (vertices t) <= 3
  /\ (size (vertices t) < 3 ->
      add_vertex t v =
      (Returns tt, mkTriangle (vertices t ++ [v]) (facet_normal t)))
  /\ (size (vertices t) = 3 ->
      add_vertex t v = (Throws (runtime_error Msg.add_vertex), t))
  /\ size (vertices (snd (add_vertex t v))) <= 3.
Proof.
  intros Ht. pose proof (reachable_triangle_size t Ht) as Hs.
  split; [exact Hs|]. unfold add_vertex.
  destruct (Z.ltb_spec (size (vertices t)) 3) as [H|H].
  - split; [reflexivity|]. split; [lia|].
    cbn [snd vertices]. rewrite size_app, size_cons, size_nil. lia.
  - split; [lia|]. split; [reflexivity|]. cbn [snd]. exact Hs.
Qed.

(** The fourth vertex offered to the right triangle. *)
Lemma add_vertex_capacity_witness :
  reachable_triangle right_triangle
  /\ add_vertex right_triangle origin =
     (Throws (runtime_error Msg.add_vertex), right_triangle).
Proof.
  assert (H : reachable_triangle right_triangle).
  { apply reach_set_facet_normal
      with (t := mkTriangle [origin; mkPoint 1 0 0; mkPoint 0 1 0] origin)
           (n := mkPoint 0 0 1); [|vm_compute; reflexivity].
    apply reach_add_vertex
      with (t := mkTriangle [origin; mkPoint 1 0 0] origin)
           (v := mkPoint 0 1 0); [|reflexivity].
    apply reach_add_vertex
      with (t := mkTriangle [origin] origin) (v := mkPoint 1 0 0);
      [|reflexivity].
    apply reach_add_vertex with (t := Triangle_new) (v := origin);
      [|reflexivity].
    exact reach_Triangle_new. }
  split; [exact H|].
  destruct (add_vertex_capacity right_triangle origin H) as (_ & _ & H3 & _).
  apply H3. reflexivity.
Defined.

(** X6: [calculate_facet_normal] throws its not-enough-vertices error
    exactly when the triangle does not hold three vertices (more than three
    included); with three vertices the only exception is that of
    [unit_vector]; and the stored facet normal plays no part. *)
Theorem calculate_facet_normal_errors (t : Triangle) :
  (calculate_facet_normal t =
     Throws (runtime_error Msg.calculate_facet_normal)
   <-> size (vertices t) <> 3)
  /\ (forall e, calculate_facet_normal t = Throws e ->
        e = runtime_error Msg.calculate_facet_normal
        \/ e = runtime_error Msg.unit_vector)
  /\ defined (calculate_facet_normal t)
  /\ (forall n, calculate_facet_normal (mkTriangle (vertices t) n) =
                calculate_facet_normal t).
Proof.
  destruct (Z.eq_dec (size (vertices t)) 3) as [H3|H3].
  - destruct (calculate_facet_normal_outcome t H3) as [E|[n E]]; rewrite E.
    + split; [split; [discriminate|contradiction]|].
      split; [intros e [= <-]; auto|]. split; [exact I|].
      intros n. rewrite <- E. reflexivity.
    + split; [split; [discriminate|contradiction]|].
      split; [discriminate|]. split; [exact I|].
      intros n'. rewrite <- E. reflexivity.
  - assert (E : calculate_facet_normal t =
                Throws (runtime_error Msg.calculate_facet_normal)).
    { unfold calculate_facet_normal. apply Z.eqb_neq in H3. rewrite H3.
      reflexivity. }
    rewrite E. split; [split; auto|].
    split; [intros e [= <-]; auto|]. split; [exact I|].
    intros n. rewrite <- E. reflexivity.
Qed.
(** ** How [to_triangle_mesh] can end *)

Lemma parser_exception_message (w : string) :
  In w parser_messages -> parser_exception (runtime_error w).
Proof. intros H. left. exists w. auto. Qed.

Ltac known_message :=
  apply parser_exception_message; unfold parser_messages;
  cbn [In]; tauto.

Section Endings.

Variable stod_conv : string -> stod_result.

Lemma parse_coordinates_throws (toks : list string) (i : Z) (e : exn) :
  parse_coordinates stod_conv toks i = Throws e ->
  e = runtime_error Msg.coordinates \/ e = out_of_range "stod".
Proof.
  unfold parse_coordinates, try_catch_invalid_argument, stod, stod_throw.
  unfold bind. intros H.
  repeat (break_match; try discriminate);
    try (exfalso; eapply at_index_not_Throws; eassumption);
    repeat match goal with
           | E : Throws _ = Throws _ |- _ => injection E as E; subst
           | E : Returns _ = Throws _ |- _ => discriminate E
           | E : Throws _ = Returns _ |- _ => discriminate E
           end;
    try discriminate; auto.
Qed.

Lemma switch_body_throws (toks : list string) (st : State) (l : Locals)
    (e : exn) :
  switch_body stod_conv toks st l = Throws e -> parser_exception e.
Proof.
  intros H.
  destruct st; cbn [switch_body] in H; unfold call in H; unfold bind in H;
    try discriminate;
    repeat (break_match; try discriminate);
    try (exfalso; eapply at_index_not_Throws; eassumption);
    try (injection H as <-; known_message).
  all: injection H as <-;
    match goal with
    | E : parse_coordinates _ _ _ = Throws _ |- _ =>
        destruct (parse_coordinates_throws _ _ _ E) as [->| ->];
        [known_message|right; reflexivity]
    | E : fst (set_facet_normal ?t ?p) = Throws _ |- _ =>
        rewrite set_facet_normal_cases in E;
        destruct (passes_unit_test p); [discriminate|];
        destruct (abs (norm p) <? EPS)%float; [|discriminate];
        injection E as <-; known_message
    | E : fst (add_vertex ?t ?p) = Throws _ |- _ =>
        unfold add_vertex in E;
        destruct (size (vertices t) <? 3); [discriminate|];
        injection E as <-; known_message
    | E : check_triangle ?t = Throws _ |- _ =>
        destruct (check_triangle_outcomes t) as [H1|[H1|H1]];
        rewrite H1 in E; try discriminate; injection E as <-; known_message
    | E : fst (add_triangle ?m ?t) = Throws _,
      C : check_triangle ?t = _ |- _ =>
        rewrite add_triangle_by_check, C in E;
        destruct (triangle_count m <? LONG_MAX); discriminate E
    end.
Qed.

Lemma while_loop_throws (toks : list string) (fuel : nat) :
  forall (st st' : State) (l l' : Locals) (e : exn),
  while_loop stod_conv fuel toks st l = (Throws e, st', l') ->
  parser_exception e.
Proof.
  induction fuel as [|fuel IH]; intros st st' l l' e H;
    cbn [while_loop] in H.
  - destruct (cnt l <? size toks); discriminate.
  - destruct (cnt l <? size toks); [|discriminate].
    destruct (switch_body stod_conv toks st l) as [[st1 l1]|e1| |] eqn:E;
      try discriminate.
    + exact (IH _ _ _ _ _ H).
    + injection H as <- _ _. exact (switch_body_throws toks st l e1 E).
Qed.

Lemma to_triangle_mesh_ends (this : STLParser) (mesh : TriangleMesh) :
  addressable (tokenize (content this)) ->
  fst (fst (to_triangle_mesh stod_conv this mesh)) = Returns tt
  \/ exists e, fst (fst (to_triangle_mesh stod_conv this mesh)) = Throws e
               /\ parser_exception e.
Proof.
  intros Ha.
  pose proof (to_triangle_mesh_defined stod_conv this mesh Ha) as Hd.
  destruct (run_tokens stod_conv (tokenize (content this)))
    as [[r st] l] eqn:E.
  rewrite (to_triangle_mesh_by_run stod_conv this mesh _ _ _ E) in Hd |- *.
  cbv zeta in Hd |- *.
  destruct r as [[]|e| |]; cbn [fst] in Hd |- *; try contradiction.
  - destruct (State_eqb st END); cbn [fst]; [left; reflexivity|].
    right. eexists. split; [reflexivity|known_message].
  - right. exists e. split; [reflexivity|].
    exact (while_loop_throws _ _ _ _ _ _ _ E).
Qed.

(** X7: on any file of a size a vector can hold, [to_triangle_mesh] comes
    to an end without undefined behaviour, and it ends either by returning
    or with one of ten of the program's [runtime_error] messages or with
    the [std::out_of_range] of [std::stod].  [std::invalid_argument] never
    leaves it, nor do the errors of [add_triangle] and of
    [calculate_facet_normal], which [check_triangle] forestalls. *)
Theorem to_triangle_mesh_endings (this : STLParser) (mesh : TriangleMesh) :
  addressable (tokenize (content this)) ->
  fst (fst (to_triangle_mesh stod_conv this mesh)) = Returns tt
  \/ exists e, fst (fst (to_triangle_mesh stod_conv this mesh)) = Throws e
               /\ parser_exception e.
Proof. exact (to_triangle_mesh_ends this mesh). Qed.

End Endings.

(** A file that stops in the middle of a vertex. *)
Lemma to_triangle_mesh_endings_witness :
  addressable (tokenize "solid s facet normal 0 0 1 outer loop vertex 0 0")
  /\ fst (fst (to_triangle_mesh Stod.stod_model
                 (parser_on "solid s facet normal 0 0 1 outer loop vertex 0 0")
                 TriangleMesh_new)) =
     Throws (runtime_error Msg.coordinates)
  /\ parser_exception (runtime_error Msg.coordinates).
Proof.
  assert (Ha : addressable
                 (tokenize (content (parser_on
                    "solid s facet normal 0 0 1 outer loop vertex 0 0"))))
    by (vm_compute; reflexivity).
  split; [exact Ha|].
  destruct (to_triangle_mesh_endings Stod.stod_model _ TriangleMesh_new Ha)
    as [H|(e & H & He)].
  - vm_compute in H. discriminate H.
  - assert (E : fst (fst (to_triangle_mesh Stod.stod_model
                 (parser_on "solid s facet normal 0 0 1 outer loop vertex 0 0")
                 TriangleMesh_new)) = Throws (runtime_error Msg.coordinates))
      by (vm_compute; reflexivity).
    split; [exact E|]. rewrite E in H. injection H as <-. exact He.
Defined.
(** ** The keywords [solid] and [endsolid], and the name of the solid *)

Section SolidHeader.

Variable stod_conv : string -> stod_result.

(** X8: a call that returns has read both keywords: the tokens of the file
    hold [solid], and they hold [endsolid]. *)
Theorem returns_only_with_keywords (this p : STLParser)
    (mesh mesh' : TriangleMesh) :
  addressable (tokenize (content this)) ->
  to_triangle_mesh stod_conv this mesh = (Returns tt, p, mesh') ->
  In "solid" (tokenize (content this))
  /\ In "endsolid" (tokenize (content this)).
Proof.
  intros Ha H. split.
  - destruct (in_dec string_dec "solid" (tokenize (content this)))
      as [Hin|Hout]; [exact Hin|exfalso].
    assert (Hno : Forall (fun tok => tok <> "solid") (tokenize (content this))).
    { apply Forall_forall. intros tok Htok ->. contradiction. }
    pose proof (no_solid_never_ended stod_conv this mesh Hno Ha) as Hf.
    rewrite H in Hf. discriminate Hf.
  - exact (returns_only_after_endsolid stod_conv this p mesh mesh' H).
Qed.

(** X9: a file of white space only, and any file whose tokens do not hold
    [solid], is read to its end in state [OUTSIDE]; the call then throws
    the error of the test that follows the loop, and the caller's mesh is
    untouched. *)
Theorem without_solid_never_ended (this : STLParser) (mesh : TriangleMesh) :
  (forall c, In c (list_ascii_of_string (content this)) -> isspace c = true)
  \/ (Forall (fun tok => tok <> "solid") (tokenize (content this))
      /\ addressable (tokenize (content this))) ->
  observable (to_triangle_mesh stod_conv this mesh) =
  (Throws (runtime_error Msg.never_ended), OUTSIDE, mesh).
Proof.
  intros [Hsp|[Hno Ha]].
  - apply no_solid_never_ended;
      rewrite (tokenize_spaces (content this) Hsp);
      [constructor|reflexivity].
  - exact (no_solid_never_ended stod_conv this mesh Hno Ha).
Qed.

(** What the keyword [solid] does in state [OUTSIDE] when a token follows
    it. *)
Lemma switch_body_solid (toks : list string) (l : Locals) (nm : string) :
  0 <= cnt l -> cnt l + 1 < 2 ^ 64 ->
  at_index toks (cnt l) = Returns "solid" ->
  at_index toks (cnt l + 1) = Returns nm ->
  switch_body stod_conv toks OUTSIDE l =
  Returns (SOLID,
           if String.eqb nm "facet"
           then mkLocals (cnt l) (tri l) (set_name (mesh_tmp l) "no name")
           else mkLocals (cnt l + 1) (tri l) (set_name (mesh_tmp l) nm)).
Proof.
  intros H0 Hb Hs Hn. cbn [switch_body]. rewrite Hs. cbn [bind].
  change (String.eqb "solid" "solid") with true. cbv iota.
  rewrite ulong_add_small by lia. rewrite Hn.
  apply at_index_Returns in Hn. destruct Hn as [[_ Hlt] _].
  replace (cnt l + 1 <? size toks) with true
    by (symmetry; apply Z.ltb_lt; exact Hlt).
  cbn [bind]. destruct (String.eqb nm "facet"); reflexivity.
Qed.

(** X10: when the last token is the first [solid] of the file, nothing is
    left to be the name: the call throws the could-not-parse-name error,
    still in state [OUTSIDE]. *)
Theorem solid_at_end_of_file (this : STLParser) (mesh : TriangleMesh)
    (pre : list string) :
  tokenize (content this) = pre ++ ["solid"] ->
  Forall (fun tok => tok <> "solid") pre ->
  addressable (tokenize (content this)) ->
  observable (to_triangle_mesh stod_conv this mesh) =
  (Throws (runtime_error Msg.solid_name), OUTSIDE, mesh).
Proof.
  intros Htok Hpre Ha.
  assert (Hrun : run_tokens stod_conv (tokenize (content this)) =
                 shift_outcome (size pre)
                   (Throws (runtime_error Msg.solid_name), OUTSIDE,
                    initial_locals)).
  { rewrite Htok. rewrite run_tokens_skip; [|exact Hpre|rewrite <- Htok; exact Ha].
    reflexivity. }
  cbn [shift_outcome] in Hrun.
  rewrite (to_triangle_mesh_by_run stod_conv this mesh _ _ _ Hrun).
  reflexivity.
Qed.

(** Once the solid was entered, an iteration neither leaves it nor renames
    the mesh. *)
Lemma switch_body_name (toks : list string) (st st' : State) (l l' : Locals) :
  st <> OUTSIDE ->
  switch_body stod_conv toks st l = Returns (st', l') ->
  st' <> OUTSIDE /\ name (mesh_tmp l') = name (mesh_tmp l).
Proof.
  intros Hst H.
  destruct st; try contradiction; cbn [switch_body] in H; unfold call in H;
    unfold bind in H; try discriminate;
    repeat (break_match; try discriminate);
    injection H as <- <-; cbn [mesh_tmp]; (split; [discriminate|]);
    try reflexivity.
  match goal with
  | E : fst (add_triangle ?m ?t) = Returns _ |- _ =>
      destruct (add_triangle m t) as [r m'] eqn:Eadd; cbn [fst snd] in *;
      subst r
  end.
  match goal with u : unit |- _ => destruct u end.
  apply add_triangle_returned in Eadd. destruct Eadd as [_ ->]. reflexivity.
Qed.

Lemma while_loop_name (toks : list string) (fuel : nat) :
  forall (st : State) (l : Locals),
  st <> OUTSIDE ->
  name (mesh_tmp (snd (while_loop stod_conv fuel toks st l))) =
  name (mesh_tmp l).
Proof.
  induction fuel as [|fuel IH]; intros st l Hst; cbn [while_loop].
  - destruct (cnt l <? size toks); reflexivity.
  - destruct (cnt l <? size toks); [|reflexivity].
    destruct (switch_body stod_conv toks st l) as [[st1 l1]|e| |] eqn:E;
      try reflexivity.
    destruct (switch_body_name toks st st1 l l1 Hst E) as [Hst1 Hn].
    rewrite IH by exact Hst1. cbn [incr_cnt mesh_tmp]. exact Hn.
Qed.

(** X11: the mesh handed back is named after the token that follows the
    first [solid], or [no name] when that token is [facet] (which is then
    read as the keyword). *)
Theorem mesh_name_follows_solid (this p : STLParser)
    (mesh mesh' : TriangleMesh) (pre rest : list string) (nm : string) :
  tokenize (content this) = pre ++ "solid" :: nm :: rest ->
  Forall (fun tok => tok <> "solid") pre ->
  addressable (tokenize (content this)) ->
  to_triangle_mesh stod_conv this mesh = (Returns tt, p, mesh') ->
  name mesh' = if String.eqb nm "facet" then "no name" else nm.
Proof.
  intros Htok Hpre Ha H.
  pose proof Ha as Ha'. rewrite Htok in Ha'.
  pose proof (addressable_app_r _ _ Ha') as Hs.
  unfold addressable in Hs. rewrite !size_cons in Hs.
  pose proof (size_nonneg rest) as Hr.
  pose proof (run_tokens_skip stod_conv pre ("solid" :: nm :: rest) Hpre Ha')
    as Hrun.
  rewrite <- Htok in Hrun.
  destruct (run_tokens stod_conv ("solid" :: nm :: rest))
    as [[r st] l] eqn:E.
  cbn [shift_outcome] in Hrun.
  rewrite (to_triangle_mesh_by_run stod_conv this mesh _ _ _ Hrun) in H.
  cbv zeta in H. destruct r; try discriminate.
  destruct (State_eqb st END); [|discriminate].
  injection H as _ <-. cbn [shift_cnt mesh_tmp].
  unfold run_tokens in E. rewrite while_loop_step in E
    by (cbn [initial_locals cnt]; rewrite !size_cons; lia).
  rewrite (switch_body_solid _ _ nm) in E;
    [|cbn; lia|cbn; lia
     |apply at_index_Returns; cbn [initial_locals cnt]; rewrite !size_cons;
      split; [lia|reflexivity]
     |apply at_index_Returns; cbn [initial_locals cnt]; rewrite !size_cons;
      split; [lia|reflexivity]].
  pose proof (while_loop_name ("solid" :: nm :: rest)
                (List.length ("solid" :: nm :: rest)) SOLID) as Hname.
  match type of E with
  | while_loop _ _ _ _ ?l0 = _ =>
      specialize (Hname l0 ltac:(discriminate)); rewrite E in Hname
  end.
  cbn [snd] in Hname. rewrite Hname.
  destruct (String.eqb nm "facet"); reflexivity.
Qed.

(** [solid facet endsolid]: the word [facet] is not taken as the name but
    read as the keyword, and [endsolid] is then not what may follow it. *)
Lemma run_tokens_facet_as_name (rest : list string) :
  addressable ("solid" :: "facet" :: "endsolid" :: rest) ->
  run_tokens stod_conv ("solid" :: "facet" :: "endsolid" :: rest) =
  (Throws (runtime_error Msg.facet_normal), FACET,
   mkLocals 2 Triangle_new (set_name TriangleMesh_new "no name")).
Proof.
  intros Ha. unfold addressable in Ha. rewrite !size_cons in Ha.
  pose proof (size_nonneg rest) as Hr.
  set (toks := "solid" :: "facet" :: "endsolid" :: rest).
  assert (Hsize : size toks = 3 + size rest)
    by (unfold toks; rewrite !size_cons; lia).
  assert (H0 : at_index toks 0 = Returns "solid")
    by (apply at_index_Returns; split; [lia|reflexivity]).
  assert (H1 : at_index toks 1 = Returns "facet")
    by (apply at_index_Returns; split; [lia|reflexivity]).
  assert (H2 : at_index toks 2 = Returns "endsolid")
    by (apply at_index_Returns; split; [lia|reflexivity]).
  unfold run_tokens.
  change (S (List.length toks))
    with (S (S (S (S (List.length rest))))).
  rewrite while_loop_step by (cbn [initial_locals cnt]; lia).
  rewrite (switch_body_solid _ _ "facet");
    [|cbn; lia|cbn; lia|exact H0|exact H1].
  change (String.eqb "facet" "facet") with true. cbv iota.
  unfold incr_cnt. cbn [cnt tri mesh_tmp initial_locals].
  change (ulong_add 0 1) with 1.
  rewrite while_loop_step by (cbn [cnt]; lia).
  cbn [switch_body cnt]. rewrite H1. cbn [bind].
  change (String.eqb "facet" "facet") with true. cbv iota.
  unfold incr_cnt. cbn [cnt tri mesh_tmp].
  change (ulong_add 1 1) with 2.
  rewrite while_loop_step by (cbn [cnt]; lia).
  cbn [switch_body cnt]. rewrite H2. cbn [bind].
  change (String.eqb "endsolid" "normal") with false.
  change (String.eqb "endsolid" "endfacet") with false. cbv iota.
  reflexivity.
Qed.

(** X12: a solid without facets, [solid <name> endsolid], gives the empty
    mesh with that name, whatever precedes the keyword [solid] (short of
    another [solid]) and whatever follows [endsolid]; unless the name is
    the word [facet], which is read as the keyword: the call then throws
    the error of an incomplete [facet normal], in state [FACET], and the
    caller's mesh is untouched. *)
Theorem solid_without_facets (this : STLParser) (mesh : TriangleMesh)
    (pre rest : list string) (nm : string) :
  tokenize (content this) = pre ++ ["solid"; nm; "endsolid"] ++ rest ->
  Forall (fun tok => tok <> "solid") pre ->
  addressable (tokenize (content this)) ->
  observable (to_triangle_mesh stod_conv this mesh) =
  if String.eqb nm "facet"
  then (Throws (runtime_error Msg.facet_normal), FACET, mesh)
  else (Returns tt, END, mkTriangleMesh [] 0 nm).
Proof.
  intros Htok Hpre Ha.
  pose proof Ha as Ha'. rewrite Htok in Ha'.
  pose proof (addressable_app_r _ _ Ha') as Hs.
  pose proof (run_tokens_skip stod_conv pre _ Hpre Ha') as Hrun.
  rewrite <- Htok in Hrun.
  destruct (String.eqb nm "facet") eqn:Hnm.
  { apply String.eqb_eq in Hnm. subst nm.
    cbn [app] in Hrun, Hs.
    rewrite (run_tokens_facet_as_name rest Hs) in Hrun.
    cbn [shift_outcome] in Hrun.
    rewrite (to_triangle_mesh_by_run stod_conv this mesh _ _ _ Hrun).
    reflexivity. }
  assert (Hfirst : while_loop stod_conv 4 ["solid"; nm; "endsolid"]
                     OUTSIDE initial_locals =
                   (Returns tt, END,
                    mkLocals 3 Triangle_new (mkTriangleMesh [] 0 nm))).
  { rewrite while_loop_step by (cbn; lia).
    rewrite (switch_body_solid _ _ nm);
      [|cbn; lia|cbn; lia|reflexivity|reflexivity].
    rewrite Hnm.
    rewrite while_loop_step by (cbn; lia).
    reflexivity. }
  destruct rest as [|tok rest].
  - rewrite app_nil_r in Hrun.
    change (run_tokens stod_conv ["solid"; nm; "endsolid"])
      with (while_loop stod_conv 4 ["solid"; nm; "endsolid"]
              OUTSIDE initial_locals) in Hrun.
    rewrite Hfirst in Hrun. cbn [shift_outcome] in Hrun.
    rewrite (to_triangle_mesh_by_run stod_conv this mesh _ _ _ Hrun).
    reflexivity.
  - destruct (while_loop_extend stod_conv _ (tok :: rest) Hs 4 OUTSIDE
                initial_locals _ (Z.le_refl 0) Hfirst
                (S (List.length (["solid"; nm; "endsolid"] ++ tok :: rest))))
      as (l2 & H2 & _ & Hm).
    { cbn [List.length app]. lia. }
    fold (run_tokens stod_conv (["solid"; nm; "endsolid"] ++ tok :: rest))
      in H2.
    rewrite H2 in Hrun. cbn [shift_outcome] in Hrun.
    rewrite (to_triangle_mesh_by_run stod_conv this mesh _ _ _ Hrun).
    cbn. rewrite Hm. reflexivity.
Qed.

End SolidHeader.

(** The one-facet file holds both keywords. *)
Lemma returns_only_with_keywords_witness :
  addressable (tokenize cube_face)
  /\ In "solid" (tokenize cube_face) /\ In "endsolid" (tokenize cube_face).
Proof.
  assert (Ha : addressable (tokenize (content (parser_on cube_face))))
    by (vm_compute; reflexivity).
  split; [exact Ha|].
  apply (returns_only_with_keywords Stod.stod_model (parser_on cube_face)
           (mkSTLParser cube_face (tokenize cube_face) END)
           TriangleMesh_new cube_face_mesh Ha).
  vm_compute. reflexivity.
Defined.

(** A bare facet, without [solid] around it. *)
Lemma without_solid_never_ended_witness :
  observable (to_triangle_mesh Stod.stod_model
                (parser_on "facet normal 0 0 1 outer loop endloop endfacet")
                TriangleMesh_new) =
  (Throws (runtime_error Msg.never_ended), OUTSIDE, TriangleMesh_new).
Proof.
  apply (without_solid_never_ended Stod.stod_model
           (parser_on "facet normal 0 0 1 outer loop endloop endfacet")
           TriangleMesh_new).
  right. split.
  - vm_compute. repeat constructor; discriminate.
  - vm_compute. reflexivity.
Defined.

(** A file that ends with the keyword. *)
Lemma solid_at_end_of_file_witness :
  tokenize "exported by cad solid" = ["exported"; "by"; "cad"] ++ ["solid"]
  /\ observable (to_triangle_mesh Stod.stod_model
                   (parser_on "exported by cad solid") TriangleMesh_new) =
     (Throws (runtime_error Msg.solid_name), OUTSIDE, TriangleMesh_new).
Proof.
  assert (Htok : tokenize (content (parser_on "exported by cad solid")) =
                 ["exported"; "by"; "cad"] ++ ["solid"])
    by (vm_compute; reflexivity).
  split; [exact Htok|].
  apply (solid_at_end_of_file Stod.stod_model
           (parser_on "exported by cad solid") TriangleMesh_new
           ["exported"; "by"; "cad"] Htok).
  - repeat constructor; discriminate.
  - vm_compute. reflexivity.
Defined.

(** The one-facet file is named [cube_face]. *)
Lemma mesh_name_follows_solid_witness :
  tokenize cube_face = [] ++ "solid" :: "cube_face" :: skipn 2 (tokenize cube_face)
  /\ name cube_face_mesh = "cube_face".
Proof.
  assert (Htok : tokenize (content (parser_on cube_face)) =
                 [] ++ "solid" :: "cube_face" :: skipn 2 (tokenize cube_face))
    by (vm_compute; reflexivity).
  split; [exact Htok|].
  apply (mesh_name_follows_solid Stod.stod_model (parser_on cube_face)
           (mkSTLParser cube_face (tokenize cube_face) END)
           TriangleMesh_new cube_face_mesh [] _ "cube_face" Htok).
  - constructor.
  - vm_compute. reflexivity.
  - vm_compute. reflexivity.
Defined.

(** An empty solid between other text. *)
Lemma solid_without_facets_witness :
  observable (to_triangle_mesh Stod.stod_model
                (parser_on (leading_text ++ empty_solid ++ " and more"))
                TriangleMesh_new) =
  (Returns tt, END, mkTriangleMesh [] 0 "nothing").
Proof.
  apply (solid_without_facets Stod.stod_model
           (parser_on (leading_text ++ empty_solid ++ " and more"))
           TriangleMesh_new ["exported"; "by"; "cad"] ["and"; "more"]
           "nothing").
  - vm_compute. reflexivity.
  - repeat constructor; discriminate.
  - vm_compute. reflexivity.
Defined.
(** ** The three coordinates *)

Section CoordinateOutcomes.

Variable stod_conv : string -> stod_result.

(** X13: [parse_coordinates] returns a point exactly when three tokens
    exist from the given position on and [std::stod] converts each of
    them; the point holds the three values in the order of the tokens.
    With fewer than three tokens it throws its own error, and it never
    lets [std::invalid_argument] through. *)
Theorem parse_coordinates_outcomes (toks : list string) (i : Z) :
  0 <= i -> i + 2 < 2 ^ 64 ->
  (size toks <= i + 2 ->
   parse_coordinates stod_conv toks i = Throws (runtime_error Msg.coordinates))
  /\ (forall p, parse_coordinates stod_conv toks i = Returns p <->
        i + 2 < size toks
        /\ stod_conv (token toks i) = Converted (x p)
        /\ stod_conv (token toks (i + 1)) = Converted (y p)
        /\ stod_conv (token toks (i + 2)) = Converted (z p))
  /\ (forall w, parse_coordinates stod_conv toks i <>
                Throws (invalid_argument w)).
Proof.
  intros Hi Hb. rewrite (parse_coordinates_cases stod_conv toks i Hi Hb).
  destruct (Z.ltb_spec (i + 2) (size toks)) as [Hlt|Hge].
  - split; [lia|].
    destruct (stod_conv (token toks i)) as [cx| |];
      [|split; [intros p; split; [discriminate|intros (_ & H & _); discriminate]
               |discriminate]..].
    destruct (stod_conv (token toks (i + 1))) as [cy| |];
      [|split; [intros p; split;
                [discriminate|intros (_ & _ & H & _); discriminate]
               |discriminate]..].
    destruct (stod_conv (token toks (i + 2))) as [cz| |];
      [|split; [intros p; split;
                [discriminate|intros (_ & _ & _ & H); discriminate]
               |discriminate]..].
    split; [|discriminate]. intros [px py pz]. cbn [x y z]. split.
    + intros [= <- <- <-]. auto.
    + intros (_ & [= <-] & [= <-] & [= <-]). reflexivity.
  - split; [reflexivity|]. split; [|discriminate].
    intros p. split; [discriminate|]. intros [H _]. lia.
Qed.

End CoordinateOutcomes.

(** The coordinates of a vertex of the one-facet file. *)
Lemma parse_coordinates_outcomes_witness :
  parse_coordinates Stod.stod_model (tokenize cube_face) 14 =
  Returns (mkPoint 1 0 0).
Proof.
  destruct (parse_coordinates_outcomes Stod.stod_model (tokenize cube_face) 14)
    as (_ & H & _); [lia|lia|].
  apply H. repeat split; vm_compute; reflexivity.
Defined.
(** ** Arithmetic on [Point]s, on binary64 values *)

Lemma binary_round_aux_opp (s : bool) (m e : Z) (l : location) :
  binary_round_aux prec emax (negb s) m e l =
  SFopp (binary_round_aux prec emax s m e l).
Proof.
  unfold binary_round_aux.
  destruct (shr_fexp prec emax m e l) as [mrs' e'].
  destruct (shr_fexp prec emax _ e' loc_Exact) as [mrs'' e''].
  destruct (shr_m mrs''); [reflexivity| |reflexivity].
  destruct (e'' <=? emax - prec); reflexivity.
Qed.

Lemma binary_normalize_opp (z e : Z) (sz : bool) :
  z <> 0 ->
  binary_normalize prec emax (- z) e sz =
  SFopp (binary_normalize prec emax z e sz).
Proof.
  intros Hz. destruct z as [|p|p]; [contradiction| |];
    cbn [Z.opp binary_normalize]; unfold binary_round;
    destruct (shl_align p e _) as [mz ez].
  - apply (binary_round_aux_opp false).
  - rewrite <- (binary_round_aux_opp true). reflexivity.
Qed.

Lemma binary_normalize_flipped (z e : Z) :
  flipped (binary_normalize prec emax z e false)
          (binary_normalize prec emax (- z) e false).
Proof.
  destruct (Z.eq_dec z 0) as [->|Hz].
  - right. exists false, false. auto.
  - left. apply binary_normalize_opp. exact Hz.
Qed.

Lemma flipped_abs (u u' : spec_float) : flipped u u' -> SFabs u = SFabs u'.
Proof.
  intros [->|(s & s' & -> & ->)]; [|reflexivity].
  destruct u; reflexivity.
Qed.

(** [a - b] and [b - a] *)
Lemma SFsub_flipped (a b : spec_float) :
  flipped (SFsub prec emax a b) (SFsub prec emax b a).
Proof.
  destruct a as [sa|sa| |sa ma ea], b as [sb|sb| |sb mb eb];
    try (left; destruct sa; try destruct sb; reflexivity);
    try (left; destruct sb; reflexivity);
    try (left; reflexivity).
  - right. destruct sa, sb; do 2 eexists; split; reflexivity.
  - cbn [SFsub]. rewrite (Z.min_comm eb ea).
    set (A := cond_Zopp sa (Z.pos (fst (shl_align ma ea (Z.min ea eb))))).
    set (B := cond_Zopp sb (Z.pos (fst (shl_align mb eb (Z.min ea eb))))).
    replace (B - A) with (- (A - B)) by lia.
    apply binary_normalize_flipped.
Qed.

(** [u / n] and [-u / n] *)
Lemma SFdiv_flipped (u u' n : spec_float) :
  flipped u u' -> flipped (SFdiv prec emax u n) (SFdiv prec emax u' n).
Proof.
  intros [->|(s & s' & -> & ->)].
  - left. destruct u as [su|su| |su mu eu], n as [sn|sn| |sn mn en];
      try reflexivity;
      try (destruct su, sn; reflexivity).
    cbn [SFdiv SFopp].
    destruct (SFdiv_core_binary prec emax (Z.pos mu) eu (Z.pos mn) en)
      as [[mz ez] lz].
    rewrite <- binary_round_aux_opp. destruct su, sn; reflexivity.
  - destruct n as [sn|sn| |sn mn en]; cbn [SFdiv].
    + left. reflexivity.
    + right. do 2 eexists; split; reflexivity.
    + left. reflexivity.
    + right. do 2 eexists; split; reflexivity.
Qed.

(** [u * u] and [(-u) * (-u)] *)
Lemma SFmul_flipped_square (u u' : spec_float) :
  flipped u u' -> SFmul prec emax u u = SFmul prec emax u' u'.
Proof.
  intros [->|(s & s' & -> & ->)].
  - destruct u as [su|su| |su mu eu]; try reflexivity;
      destruct su; reflexivity.
  - destruct s, s'; reflexivity.
Qed.

Lemma SFmul_comm (a b : spec_float) :
  SFmul prec emax a b = SFmul prec emax b a.
Proof.
  destruct a as [sa|sa| |sa ma ea], b as [sb|sb| |sb mb eb];
    try reflexivity; cbn [SFmul]; rewrite ?(xorb_comm sb sa); try reflexivity.
  rewrite (Pos.mul_comm mb ma), (Z.add_comm eb ea). reflexivity.
Qed.

Lemma SFadd_comm (a b : spec_float) :
  SFadd prec emax a b = SFadd prec emax b a.
Proof.
  destruct a as [sa|sa| |sa ma ea], b as [sb|sb| |sb mb eb];
    try reflexivity; try (destruct sa, sb; reflexivity).
  cbn [SFadd]. rewrite (Z.min_comm eb ea).
  rewrite (Z.add_comm (cond_Zopp sb _)). reflexivity.
Qed.

(** [f - u'] and [(-f) - u] for flipped [u], [u']: equal in magnitude. *)
Lemma SFsub_flipped_abs (f u u' : spec_float) :
  flipped u u' ->
  SFabs (SFsub prec emax f u') = SFabs (SFsub prec emax (SFopp f) u).
Proof.
  intros [->|(s & s' & -> & ->)].
  - destruct f as [sf|sf| |sf mf ef], u as [su|su| |su mu eu];
      try reflexivity; try (destruct sf, su; reflexivity).
    cbn [SFsub SFopp].
    set (F := Z.pos (fst (shl_align mf ef (Z.min ef eu)))).
    set (U := Z.pos (fst (shl_align mu eu (Z.min ef eu)))).
    replace (cond_Zopp (negb sf) F - cond_Zopp su U)
      with (- (cond_Zopp sf F - cond_Zopp (negb su) U))
      by (destruct sf, su; cbn [cond_Zopp negb]; lia).
    apply flipped_abs. apply binary_normalize_flipped.
  - destruct f as [sf|sf| |sf mf ef]; try reflexivity;
      destruct sf, s, s'; reflexivity.
Qed.

(** The same facts on the doubles of the program. *)
Lemma sub_flipped (a b : float) :
  flipped (Prim2SF (a - b)) (Prim2SF (b - a)).
Proof. rewrite !sub_spec. apply SFsub_flipped. Qed.

Lemma abs_sub_sym (a b : float) : abs (a - b) = abs (b - a).
Proof.
  apply Prim2SF_inj. rewrite !abs_spec.
  apply flipped_abs. apply sub_flipped.
Qed.

Lemma mul_comm (a b : float) : (a * b = b * a)%float.
Proof. apply Prim2SF_inj. rewrite !mul_spec. apply SFmul_comm. Qed.

Lemma add_comm (a b : float) : (a + b = b + a)%float.
Proof. apply Prim2SF_inj. rewrite !add_spec. apply SFadd_comm. Qed.

Lemma square_flipped (c c' : float) :
  flipped (Prim2SF c) (Prim2SF c') -> (c * c = c' * c')%float.
Proof.
  intros H. apply Prim2SF_inj. rewrite !mul_spec.
  apply SFmul_flipped_square. exact H.
Qed.

Lemma div_flipped (c c' n : float) :
  flipped (Prim2SF c) (Prim2SF c') ->
  flipped (Prim2SF (c / n)) (Prim2SF (c' / n)).
Proof. intros H. rewrite !div_spec. apply SFdiv_flipped. exact H. Qed.

Lemma within_EPS_flipped (f u u' : float) :
  flipped (Prim2SF u) (Prim2SF u') ->
  (abs (f - u') <? EPS)%float = (abs (- f - u) <? EPS)%float.
Proof.
  intros H. f_equal. apply Prim2SF_inj.
  rewrite !abs_spec, !sub_spec, opp_spec.
  apply SFsub_flipped_abs. exact H.
Qed.

(** X14: [operator==] is symmetric. *)
Theorem Point_eq_sym (p q : Point) : Point_eq p q = Point_eq q p.
Proof.
  unfold Point_eq.
  rewrite (abs_sub_sym (x q) (x p)), (abs_sub_sym (y q) (y p)),
    (abs_sub_sym (z q) (z p)).
  reflexivity.
Qed.

(** X15: [operator+] is commutative. *)
Theorem Point_add_comm (p q : Point) : Point_add p q = Point_add q p.
Proof.
  unfold Point_add.
  rewrite (add_comm (x p)), (add_comm (y p)), (add_comm (z p)).
  reflexivity.
Qed.

Lemma within_EPS_self (f : float) :
  (abs (f - f) <? EPS)%float = finite f.
Proof.
  rewrite ltb_spec, abs_spec, sub_spec.
  destruct SF_constants as (_ & -> & _).
  unfold finite. destruct (Prim2SF f) as [s|s| |s m e].
  - destruct s; reflexivity.
  - destruct s; reflexivity.
  - reflexivity.
  - unfold SF64sub. cbn [SFsub]. rewrite Z.sub_diag. reflexivity.
Qed.

(** X16: a point equals itself exactly when its three coordinates are
    numbers; with a NaN or an infinity among them [p == p] is false. *)
Theorem Point_eq_refl (p : Point) : Point_eq p p = finite_point p.
Proof.
  unfold Point_eq, finite_point. rewrite !within_EPS_self. reflexivity.
Qed.

(** Only numbers are within [EPS] of each other. *)
Lemma within_EPS_finite (a b : float) :
  (abs (a - b) <? EPS)%float = true -> finite a = true /\ finite b = true.
Proof.
  rewrite ltb_spec, abs_spec, sub_spec.
  destruct SF_constants as (_ & -> & _).
  unfold finite.
  destruct (Prim2SF a) as [sa|sa| |sa ma ea],
           (Prim2SF b) as [sb|sb| |sb mb eb];
    try (intros _; split; reflexivity);
    try (destruct sa; discriminate);
    try (destruct sb; discriminate);
    try (destruct sa, sb; discriminate);
    discriminate.
Qed.

(** A difference, a product or a quotient that is a number was computed
    from numbers. *)
Lemma finite_sub (a b : float) :
  finite (a - b) = true -> finite a = true /\ finite b = true.
Proof.
  unfold finite. rewrite sub_spec.
  destruct (Prim2SF a) as [sa|sa| |sa ma ea],
           (Prim2SF b) as [sb|sb| |sb mb eb];
    try (intros _; split; reflexivity);
    try (destruct sa; discriminate);
    try (destruct sb; discriminate);
    try (destruct sa, sb; discriminate);
    discriminate.
Qed.

Lemma finite_mul (a b : float) :
  finite (a * b) = true -> finite a = true /\ finite b = true.
Proof.
  unfold finite. rewrite mul_spec.
  destruct (Prim2SF a) as [sa|sa| |sa ma ea],
           (Prim2SF b) as [sb|sb| |sb mb eb];
    try (intros _; split; reflexivity);
    discriminate.
Qed.

Lemma finite_div (a n : float) : finite (a / n) = true -> finite a = true.
Proof.
  unfold finite. rewrite div_spec.
  destruct (Prim2SF a) as [sa|sa| |sa ma ea],
           (Prim2SF n) as [sn|sn| |sn mn en];
    try (intros _; reflexivity);
    discriminate.
Qed.

Lemma finite_point_sub (p q : Point) :
  finite_point (Point_sub p q) = true ->
  finite_point p = true /\ finite_point q = true.
Proof.
  unfold finite_point, Point_sub. cbn [x y z]. intros H.
  apply andb_prop in H. destruct H as [H Hz].
  apply andb_prop in H. destruct H as [Hx Hy].
  apply finite_sub in Hx, Hy, Hz.
  destruct Hx as [-> ->], Hy as [-> ->], Hz as [-> ->]. auto.
Qed.

Lemma finite_cross_product (a b : Point) :
  finite_point (cross_product a b) = true ->
  finite_point a = true /\ finite_point b = true.
Proof.
  unfold finite_point, cross_product. cbn [x y z]. intros H.
  apply andb_prop in H. destruct H as [H _].
  apply andb_prop in H. destruct H as [Hx Hy].
  apply finite_sub in Hx, Hy.
  destruct Hx as [Hx1 Hx2], Hy as [Hy1 Hy2].
  apply finite_mul in Hx1, Hx2, Hy1, Hy2.
  destruct Hx1 as [Hay Hbz], Hx2 as [Haz Hby], Hy1 as [_ Hbx],
    Hy2 as [Hax _].
  rewrite Hax, Hay, Haz, Hbx, Hby, Hbz. auto.
Qed.

Lemma finite_unit_vector (p n : Point) :
  unit_vector p = Returns n -> finite_point n = true ->
  finite_point p = true.
Proof.
  unfold unit_vector. cbv zeta.
  destruct (abs (norm p) <? EPS)%float; [discriminate|].
  intros [= <-]. unfold finite_point. cbn [x y z]. intros H.
  apply andb_prop in H. destruct H as [H Hz].
  apply andb_prop in H. destruct H as [Hx Hy].
  apply finite_div in Hx, Hy, Hz. rewrite Hx, Hy, Hz. reflexivity.
Qed.

Lemma Point_eq_finite (p q : Point) :
  Point_eq p q = true -> finite_point p = true /\ finite_point q = true.
Proof.
  unfold Point_eq, finite_point. intros H.
  apply andb_prop in H. destruct H as [H Hz].
  apply andb_prop in H. destruct H as [Hx Hy].
  apply within_EPS_finite in Hx, Hy, Hz.
  destruct Hx as [-> ->], Hy as [-> ->], Hz as [-> ->]. auto.
Qed.

(** [check_triangle] on a triangle of three vertices. *)
Lemma check_triangle_three (v0 v1 v2 fn : Point) :
  check_triangle (mkTriangle [v0; v1; v2] fn) =
  (n <- unit_vector (cross_product (Point_sub v1 v0) (Point_sub v2 v0)) ;;
   Returns (Point_eq n fn)).
Proof.
  unfold check_triangle, calculate_facet_normal.
  cbn [vertices facet_normal].
  change (size [v0; v1; v2] =? 3) with true.
  change (at_index [v0; v1; v2] 0) with (Returns v0).
  change (at_index [v0; v1; v2] 1) with (Returns v1).
  change (at_index [v0; v1; v2] 2) with (Returns v2).
  cbn [negb bind].
  destruct (unit_vector _) as [n|e| |]; cbn [bind]; try reflexivity.
  unfold Point_neq. destruct (Point_eq n fn); reflexivity.
Qed.

Lemma size_three {A : Type} (l : list A) :
  size l = 3 -> exists a b c, l = [a; b; c].
Proof.
  unfold size. intros H.
  destruct l as [|a [|b [|c [|d l]]]]; cbn [List.length] in H; try lia.
  eauto.
Qed.

Lemma check_triangle_true_three (t : Triangle) :
  check_triangle t = Returns true ->
  exists v0 v1 v2, t = mkTriangle [v0; v1; v2] (facet_normal t).
Proof.
  intros H. unfold check_triangle in H.
  destruct (size (vertices t) =? 3) eqn:E; [|discriminate].
  apply Z.eqb_eq in E. apply size_three in E.
  destruct E as (a & b & c & E). exists a, b, c.
  destruct t as [vs fn]. cbn [vertices facet_normal] in *. rewrite E.
  reflexivity.
Qed.

Lemma check_triangle_numbers (t : Triangle) :
  check_triangle t = Returns true ->
  Forall (fun v => finite_point v = true) (vertices t)
  /\ finite_point (facet_normal t) = true.
Proof.
  intros H.
  destruct (check_triangle_true_three t H) as (v0 & v1 & v2 & E).
  rewrite E in H. rewrite check_triangle_three in H.
  destruct (unit_vector _) as [n|e| |] eqn:En; cbn [bind] in H;
    try discriminate.
  injection H as H. apply Point_eq_finite in H. destruct H as [Hn Hfn].
  apply (finite_unit_vector _ _ En) in Hn.
  apply finite_cross_product in Hn. destruct Hn as [Ha Hb].
  apply finite_point_sub in Ha, Hb.
  destruct Ha as [H1 H0], Hb as [H2 _].
  rewrite E. cbn [vertices facet_normal]. split; [|exact Hfn].
  repeat constructor; assumption.
Qed.

(** X17: a triangle that passes [check_triangle] holds numbers only: no
    coordinate of its three vertices or of its facet normal is a NaN or an
    infinity. *)
Theorem check_triangle_finite (t : Triangle) :
  check_triangle t = Returns true ->
  Forall (fun v => finite_point v = true) (vertices t)
  /\ finite_point (facet_normal t) = true.
Proof. exact (check_triangle_numbers t). Qed.

Lemma check_triangle_finite_witness :
  check_triangle right_triangle = Returns true
  /\ Forall (fun v => finite_point v = true) (vertices right_triangle)
  /\ finite_point (facet_normal right_triangle) = true.
Proof.
  assert (H : check_triangle right_triangle = Returns true)
    by (vm_compute; reflexivity).
  split; [exact H|]. exact (check_triangle_finite right_triangle H).
Defined.

Lemma cross_product_flipped (a b : Point) :
  flipped (Prim2SF (x (cross_product a b))) (Prim2SF (x (cross_product b a)))
  /\ flipped (Prim2SF (y (cross_product a b)))
             (Prim2SF (y (cross_product b a)))
  /\ flipped (Prim2SF (z (cross_product a b)))
             (Prim2SF (z (cross_product b a))).
Proof.
  unfold cross_product. cbn [x y z].
  rewrite (mul_comm (y b) (z a)), (mul_comm (z b) (y a)),
    (mul_comm (z b) (x a)), (mul_comm (x b) (z a)),
    (mul_comm (x b) (y a)), (mul_comm (y b) (x a)).
  split; [|split]; apply sub_flipped.
Qed.

(** The norm of the cross product does not depend on the order of the two
    vectors: whether a triangle is degenerate does not depend on the order
    of its vertices. *)
Lemma norm_cross_product (a b : Point) :
  norm (cross_product a b) = norm (cross_product b a).
Proof.
  destruct (cross_product_flipped a b) as (Hx & Hy & Hz).
  unfold norm.
  rewrite (square_flipped _ _ Hx), (square_flipped _ _ Hy),
    (square_flipped _ _ Hz).
  reflexivity.
Qed.

(** X18: the check is sensitive to the winding order, exactly: exchanging
    the second and third vertex has the effect of reversing the stored
    normal.  The two calls throw alike, and return the same value. *)
Theorem check_triangle_swap (v0 v1 v2 fn : Point) :
  check_triangle (mkTriangle [v0; v2; v1] fn) =
  check_triangle (mkTriangle [v0; v1; v2] (opposite fn)).
Proof.
  rewrite !check_triangle_three.
  set (a := Point_sub v1 v0). set (b := Point_sub v2 v0).
  destruct (cross_product_flipped a b) as (Hx & Hy & Hz).
  unfold unit_vector. cbv zeta. rewrite (norm_cross_product b a).
  destruct (abs (norm (cross_product a b)) <? EPS)%float; [reflexivity|].
  cbn [bind]. f_equal. unfold Point_eq, opposite. cbn [x y z].
  rewrite (within_EPS_flipped (x fn) _ _ (div_flipped _ _ _ Hx)),
    (within_EPS_flipped (y fn) _ _ (div_flipped _ _ _ Hy)),
    (within_EPS_flipped (z fn) _ _ (div_flipped _ _ _ Hz)).
  reflexivity.
Qed.
(** ** The mesh of a parsed file, and the program *)

Section ParsedMesh.

Variable stod_conv : string -> stod_result.

(** X19: [std::stod] converts [nan] and [inf], but no such value reaches
    the caller: in the mesh of a file that was parsed, the count is the
    number of triangles, and every triangle has three vertices and holds
    numbers only. *)
Theorem parsed_mesh_finite (this p : STLParser) (mesh mesh' : TriangleMesh) :
  to_triangle_mesh stod_conv this mesh = (Returns tt, p, mesh') ->
  triangle_count mesh' = size (triangles mesh')
  /\ Forall (fun t => size (vertices t) = 3
                      /\ Forall (fun v => finite_point v = true) (vertices t)
                      /\ finite_point (facet_normal t) = true)
            (triangles mesh').
Proof.
  intros H.
  destruct (to_triangle_mesh_result_valid stod_conv this p mesh mesh' H)
    as [Hc Hv].
  split; [exact Hc|].
  apply (Forall_impl _ (P := fun t => check_triangle t = Returns true));
    [|exact Hv].
  intros t Ht. split.
  - destruct (check_triangle_true_three t Ht) as (v0 & v1 & v2 & ->).
    reflexivity.
  - exact (check_triangle_numbers t Ht).
Qed.

(** X20: how [main] ends when called with a file name: it prints a mesh
    whose count is its number of triangles, or it prints the cause of a
    [runtime_error], or the [std::out_of_range] of [std::stod], which no
    handler catches, leaves [main]. *)
Theorem main_endings (files : string -> option string) (st0 : State)
    (prog filename : string) :
  (forall text, files filename = Some text -> addressable (tokenize text)) ->
  (exists mesh,
      main files st0 stod_conv [prog; filename] = Returns (PrintedMesh mesh)
      /\ triangle_count mesh = size (triangles mesh))
  \/ (exists what,
      main files st0 stod_conv [prog; filename] =
      Returns (PrintedError filename what))
  \/ main files st0 stod_conv [prog; filename] =
     Throws (out_of_range "stod").
Proof.
  intros Hfile. unfold main.
  change (size [prog; filename] =? 2) with true.
  change (at_index [prog; filename] 1) with (Returns filename).
  cbn [bind]. unfold STLParser_new.
  destruct (files filename) as [text|] eqn:Hf; cbn [bind].
  - set (p := mkSTLParser (read_content text) [] st0).
    assert (Ha : addressable (tokenize (content p))).
    { unfold p. cbn [content]. rewrite tokenize_after_read_content.
      exact (Hfile text eq_refl). }
    pose proof (to_triangle_mesh_ends stod_conv p TriangleMesh_new Ha) as He.
    destruct (to_triangle_mesh stod_conv p TriangleMesh_new)
      as [[r p'] mesh'] eqn:E.
    cbn [fst] in He. destruct He as [->|(e & -> & [(w & -> & _)| ->])];
      cbn [bind].
    + left. exists mesh'. split; [reflexivity|].
      exact (proj1 (to_triangle_mesh_result_valid stod_conv p p'
                      TriangleMesh_new mesh' E)).
    + right. left. exists w. reflexivity.
    + right. right. reflexivity.
  - right. left. eexists. reflexivity.
Qed.

End ParsedMesh.

(** The one-facet file. *)
Lemma parsed_mesh_finite_witness :
  to_triangle_mesh Stod.stod_model (parser_on cube_face) TriangleMesh_new =
  (Returns tt, mkSTLParser cube_face (tokenize cube_face) END, cube_face_mesh)
  /\ triangle_count cube_face_mesh = size (triangles cube_face_mesh)
  /\ Forall (fun t => size (vertices t) = 3
                      /\ Forall (fun v => finite_point v = true) (vertices t)
                      /\ finite_point (facet_normal t) = true)
            (triangles cube_face_mesh).
Proof.
  assert (H : to_triangle_mesh Stod.stod_model (parser_on cube_face)
                TriangleMesh_new =
              (Returns tt, mkSTLParser cube_face (tokenize cube_face) END,
               cube_face_mesh))
    by (vm_compute; reflexivity).
  split; [exact H|].
  exact (parsed_mesh_finite Stod.stod_model _ _ _ _ H).
Defined.

(** A coordinate too large for a [double] ends the program by an exception
    that is not caught. *)
Lemma main_endings_witness :
  (forall text, (fun _ : string => Some overflow_file) "big.stl" = Some text ->
                addressable (tokenize text))
  /\ main (fun _ => Some overflow_file) OUTSIDE Stod.stod_model
          ["stl_reader"; "big.stl"] = Throws (out_of_range "stod").
Proof.
  assert (Ha : forall text,
             (fun _ : string => Some overflow_file) "big.stl" = Some text ->
             addressable (tokenize text)).
  { intros text [= <-]. vm_compute. reflexivity. }
  split; [exact Ha|].
  destruct (main_endings Stod.stod_model (fun _ => Some overflow_file)
              OUTSIDE "stl_reader" "big.stl" Ha)
    as [(mesh & H & _)|[(what & H)|H]].
  - vm_compute in H. discriminate H.
  - vm_compute in H. discriminate H.
  - exact H.
Defined.
